(** * hello-agent: the hand-rolled "lite" agent

    A shallow embedding of [packages/agent-lite]:
    - [tools/sandbox.js]  : [ensureSandbox], [resolveSandboxPath];
    - [tools/index.js]    : [assertNonEmptyString], [validateArgs], [runTool];
    - [agent.js]          : [normalizeModelOutput], [parseModelOutput],
                            [callModel], [runLiteAgent].

    Conventions of the embedding.
    - A JavaScript string is the list of its UTF-16 code units ([list N]).
    - Thrown [Error]s are values of the type [error]; a function that may
      throw returns [error + A].
    - Node's [path] module is the POSIX one ([path.sep] is "/").
    - The file system is a finite map from absolute paths (lists of names)
      to nodes; it holds bytes, and text goes through UTF-8 on its way in
      and out, as [fs.writeFile(_, _, "utf8")] and [fs.readFile(_, "utf8")]
      do.  There are no symbolic links, permissions or I/O faults. *)

From Stdlib Require Import ZArith NArith List Ascii String Lia Bool.
From stdpp Require Import base option list gmap.
Import ListNotations.

#[local] Set Warnings "-register-all".

Local Open Scope N_scope.
Local Open Scope list_scope.

(* ===================================================================== *)
(** ** JavaScript strings *)
(* ===================================================================== *)

Module JS.

(** A string literal of the source, as code units. *)
Definition lit (s : string) : list N :=
  map N_of_ascii (list_ascii_of_string s).

(** The same with every apostrophe read as a double quote, to write JSON
    texts legibly. *)
Definition jq (s : string) : list N :=
  map (fun c => if N.eqb c 39 then 34 else c) (lit s).

(** ECMAScript [WhiteSpace] and [LineTerminator] code units, the set that
    [String.prototype.trim] strips. *)
Definition isWhiteSpace (c : N) : bool :=
  (9 <=? c) && (c <=? 13)
  || (c =? 32) || (c =? 160) || (c =? 5760)
  || (8192 <=? c) && (c <=? 8202)
  || (c =? 8232) || (c =? 8233) || (c =? 8239) || (c =? 8287)
  || (c =? 12288) || (c =? 65279).

Fixpoint trimStart (s : list N) : list N :=
  match s with
  | c :: s' => if isWhiteSpace c then trimStart s' else s
  | [] => []
  end.

Definition trimEnd (s : list N) : list N := rev (trimStart (rev s)).

Definition trim (s : list N) : list N := trimEnd (trimStart s).

Definition startsWith (s p : list N) : bool := bool_decide (p `prefix_of` s).
Definition endsWith (s p : list N) : bool := bool_decide (p `suffix_of` s).

(** [s.slice(0, -n)] *)
Definition dropEnd (n : nat) (s : list N) : list N :=
  take (length s - n)%nat s.

(** [s.split(c)] for a one-unit separator: never the empty list. *)
Fixpoint split (c : N) (s : list N) : list (list N) :=
  match s with
  | [] => [[]]
  | x :: s' =>
      if N.eqb x c then [] :: split c s'
      else match split c s' with
           | h :: t => (x :: h) :: t
           | [] => [[x]]
           end
  end.

(** [parts.join(sep)] *)
Fixpoint join (sep : list N) (parts : list (list N)) : list N :=
  match parts with
  | [] => []
  | [p] => p
  | p :: ps => p ++ sep ++ join sep ps
  end.

End JS.

(* ===================================================================== *)
(** ** Node's [path.resolve] and [path.dirname] (POSIX) *)
(* ===================================================================== *)

Module Path.

Definition slash : N := 47.
Definition sep : list N := [slash].
Definition dot : list N := JS.lit ".".
Definition dotdot : list N := JS.lit "..".

Definition isAbsolute (p : list N) : bool :=
  match p with c :: _ => N.eqb c slash | [] => false end.

(** One segment of [normalizeString]: empty and "." segments vanish, ".."
    removes the segment before it; above the top it is dropped, or kept
    when [allowAboveRoot]. *)
Definition normalizeStep (allowAboveRoot : bool) (acc : list (list N))
    (seg : list N) : list (list N) :=
  if bool_decide (seg = []) || bool_decide (seg = dot) then acc
  else if bool_decide (seg = dotdot) then
    match last acc with
    | None => if allowAboveRoot then [dotdot] else []
    | Some l =>
        if allowAboveRoot && bool_decide (l = dotdot) then acc ++ [dotdot]
        else removelast acc
    end
  else acc ++ [seg].

Definition normalizeSegments (allowAboveRoot : bool) (p : list N)
    : list (list N) :=
  fold_left (normalizeStep allowAboveRoot) (JS.split slash p) [].

Definition normalizeString (p : list N) (allowAboveRoot : bool) : list N :=
  JS.join sep (normalizeSegments allowAboveRoot p).

(** The right-to-left loop of [resolve]: [rargs] are the arguments not yet
    visited, last first; after them comes [process.cwd()]. *)
Fixpoint resolveLoop (cwd : list N) (rargs : list (list N))
    (resolvedPath : list N) : list N * bool :=
  match rargs with
  | [] =>
      match cwd with
      | [] => (resolvedPath, false)
      | _ => (cwd ++ sep ++ resolvedPath, isAbsolute cwd)
      end
  | [] :: rest => resolveLoop cwd rest resolvedPath
  | p :: rest =>
      if isAbsolute p then (p ++ sep ++ resolvedPath, true)
      else resolveLoop cwd rest (p ++ sep ++ resolvedPath)
  end.

Definition resolve (cwd : list N) (args : list (list N)) : list N :=
  let '(resolvedPath, resolvedAbsolute) := resolveLoop cwd (rev args) [] in
  let n := normalizeString resolvedPath (negb resolvedAbsolute) in
  if resolvedAbsolute then slash :: n
  else match n with [] => dot | _ => n end.

(** The segments of an absolute path, as the operating system walks them. *)
Definition segments (p : list N) : list (list N) :=
  filter (fun s => s ≠ []) (JS.split slash p).

(** The absolute path with the given segments. *)
Definition ofSegments (segs : list (list N)) : list N :=
  slash :: JS.join sep segs.

(** [path.dirname] of a normalized absolute path. *)
Definition dirname (p : list N) : list N :=
  ofSegments (removelast (segments p)).

End Path.

(* ===================================================================== *)
(** ** Errors *)
(* ===================================================================== *)

(** One constructor per [throw] of the source; file-system and adapter
    failures carry what the callee reported, and [TypeError] is what a
    built-in throws when handed a value that is not a string. *)
Inductive error : Type :=
  | InputMustBeNonEmptyString
  | MissingApiKey
  | MissingModel
  | EmptyModelResponse
  | AdapterFailure (reason : list N)
  | ExpectedJSON
  | ExpectedJSONObject
  | UnknownType
  | ToolCallMissingName
  | FinalResponseMissingContent
  | UnknownTool (name : list N)
  | UnhandledTool (name : list N)
  | ArgsMustBeObject
  | ListFilesNoArguments
  | MustBeNonEmptyString (field : list N)
  | PathEscapesSandbox (userPath : list N)
  | FsFailure (code : list N) (path : list N)
  | TypeError (what : list N)
  | ExceededMaxIterations.

(** The error kinds of the design documents. *)
Inductive errorKind : Type :=
  | InvalidInputError
  | ConfigurationError
  | AdapterError
  | MalformedOutputError
  | UnknownToolError
  | InvalidArgumentsError
  | PathEscapeError
  | FilesystemError
  | BuiltinTypeError
  | MaxIterationsExceeded.

Definition kindOf (e : error) : errorKind :=
  match e with
  | InputMustBeNonEmptyString => InvalidInputError
  | MissingApiKey | MissingModel => ConfigurationError
  | EmptyModelResponse | AdapterFailure _ => AdapterError
  | ExpectedJSON | ExpectedJSONObject | UnknownType
  | ToolCallMissingName | FinalResponseMissingContent => MalformedOutputError
  | UnknownTool _ | UnhandledTool _ => UnknownToolError
  | ArgsMustBeObject | ListFilesNoArguments | MustBeNonEmptyString _ =>
      InvalidArgumentsError
  | PathEscapesSandbox _ => PathEscapeError
  | FsFailure _ _ => FilesystemError
  | TypeError _ => BuiltinTypeError
  | ExceededMaxIterations => MaxIterationsExceeded
  end.

(** [error.message] *)
Definition messageOf (e : error) : list N :=
  match e with
  | InputMustBeNonEmptyString => JS.lit "input must be a non-empty string."
  | MissingApiKey => JS.lit "Missing OPENAI_API_KEY in environment."
  | MissingModel => JS.lit "Missing OPENAI_MODEL in environment."
  | EmptyModelResponse => JS.lit "Empty model response."
  | AdapterFailure r => r
  | ExpectedJSON => JS.lit "Invalid model output format (expected JSON)."
  | ExpectedJSONObject =>
      JS.lit "Invalid model output format (expected JSON object)."
  | UnknownType => JS.lit "Invalid model output format (unknown type)."
  | ToolCallMissingName => JS.lit "Tool call missing name."
  | FinalResponseMissingContent => JS.lit "Final response missing content."
  | UnknownTool n => JS.lit "Unknown tool: " ++ n
  | UnhandledTool n => JS.lit "Unhandled tool: " ++ n
  | ArgsMustBeObject => JS.lit "args must be an object."
  | ListFilesNoArguments => JS.lit "list_files does not accept arguments."
  | MustBeNonEmptyString f => f ++ JS.lit " must be a non-empty string."
  | PathEscapesSandbox p => JS.lit "Path escapes sandbox: " ++ p
  | FsFailure c p => c ++ JS.lit ": " ++ p
  | TypeError w => w
  | ExceededMaxIterations => JS.lit "Exceeded max iterations."
  end.

(* ===================================================================== *)
(** ** UTF-8, as [fs.writeFile] and [fs.readFile] apply it *)
(* ===================================================================== *)

Module UTF8.

Definition inRange (b lo hi : N) : bool := (lo <=? b) && (b <=? hi).

Definition isHigh (u : N) : bool := inRange u 0xD800 0xDBFF.
Definition isLow (u : N) : bool := inRange u 0xDC00 0xDFFF.
Definition isCont (b : N) : bool := inRange b 0x80 0xBF.

(** U+FFFD, and its three bytes. *)
Definition replacementUnit : N := 0xFFFD.
Definition replacement : list N := [0xEF; 0xBF; 0xBD].

Definition encodePoint (cp : N) : list N :=
  if cp <? 0x80 then [cp]
  else if cp <? 0x800 then [0xC0 + cp / 64; 0x80 + cp mod 64]
  else if cp <? 0x10000 then
    [0xE0 + cp / 4096; 0x80 + (cp / 64) mod 64; 0x80 + cp mod 64]
  else
    [0xF0 + cp / 262144; 0x80 + (cp / 4096) mod 64;
     0x80 + (cp / 64) mod 64; 0x80 + cp mod 64].

(** Code units to bytes: a surrogate pair is one code point, a surrogate
    on its own is written as U+FFFD. *)
Fixpoint encode (s : list N) : list N :=
  match s with
  | [] => []
  | u :: r =>
      if isHigh u then
        match r with
        | l :: r' =>
            if isLow l then
              encodePoint (0x10000 + (u - 0xD800) * 1024 + (l - 0xDC00))
                ++ encode r'
            else replacement ++ encode r
        | [] => replacement
        end
      else if isLow u then replacement ++ encode r
      else encodePoint u ++ encode r
  end.

Definition unitsOf (cp : N) : list N :=
  if cp <? 0x10000 then [cp]
  else [0xD800 + (cp - 0x10000) / 1024; 0xDC00 + (cp - 0x10000) mod 1024].

(** Bytes to code units; every maximal ill-formed part becomes U+FFFD and
    decoding resumes at the byte that broke the sequence. *)
Fixpoint decode (b : list N) : list N :=
  match b with
  | [] => []
  | b0 :: r =>
      if b0 <? 0x80 then b0 :: decode r
      else if inRange b0 0xC2 0xDF then
        match r with
        | b1 :: r1 =>
            if isCont b1 then ((b0 - 0xC0) * 64 + (b1 - 0x80)) :: decode r1
            else replacementUnit :: decode r
        | [] => [replacementUnit]
        end
      else if inRange b0 0xE0 0xEF then
        let lo := if b0 =? 0xE0 then 0xA0 else 0x80 in
        let hi := if b0 =? 0xED then 0x9F else 0xBF in
        match r with
        | b1 :: r1 =>
            if inRange b1 lo hi then
              match r1 with
              | b2 :: r2 =>
                  if isCont b2 then
                    ((b0 - 0xE0) * 4096 + (b1 - 0x80) * 64 + (b2 - 0x80))
                      :: decode r2
                  else replacementUnit :: decode r1
              | [] => [replacementUnit]
              end
            else replacementUnit :: decode r
        | [] => [replacementUnit]
        end
      else if inRange b0 0xF0 0xF4 then
        let lo := if b0 =? 0xF0 then 0x90 else 0x80 in
        let hi := if b0 =? 0xF4 then 0x8F else 0xBF in
        match r with
        | b1 :: r1 =>
            if inRange b1 lo hi then
              match r1 with
              | b2 :: r2 =>
                  if isCont b2 then
                    match r2 with
                    | b3 :: r3 =>
                        if isCont b3 then
                          unitsOf ((b0 - 0xF0) * 262144 + (b1 - 0x80) * 4096
                                   + (b2 - 0x80) * 64 + (b3 - 0x80))
                            ++ decode r3
                        else replacementUnit :: decode r2
                    | [] => [replacementUnit]
                    end
                  else replacementUnit :: decode r1
              | [] => [replacementUnit]
              end
            else replacementUnit :: decode r
        | [] => [replacementUnit]
        end
      else replacementUnit :: decode r
  end.

(** Well-formed UTF-16: code units below 2^16, every surrogate in a pair. *)
Fixpoint wellFormed (s : list N) : bool :=
  match s with
  | [] => true
  | u :: r =>
      if isHigh u then
        match r with
        | l :: r' => isLow l && wellFormed r'
        | [] => false
        end
      else negb (isLow u) && (u <? 0x10000) && wellFormed r
  end.

End UTF8.

(* ===================================================================== *)
(** ** JSON values and [JSON.parse] *)
(* ===================================================================== *)

Module JSON.

(** A decoded JSON value.  A number is kept as the exact decimal
    [mantissa * 10 ^ exponent] its text denotes; the program only ever asks
    whether it is zero.  An object lists its properties in creation order,
    one entry per key. *)
Inductive value : Type :=
  | Null
  | Bool (b : bool)
  | Number (mantissa exponent : Z)
  | Str (s : list N)
  | Array (items : list value)
  | Object (props : list (list N * value)).

(** [obj[key]]; [None] is [undefined]. *)
Fixpoint lookup (key : list N) (props : list (list N * value))
    : option value :=
  match props with
  | [] => None
  | (k, v) :: rest => if bool_decide (k = key) then Some v else lookup key rest
  end.

(** [obj[key] = v] *)
Fixpoint set (key : list N) (v : value) (props : list (list N * value))
    : list (list N * value) :=
  match props with
  | [] => [(key, v)]
  | (k, w) :: rest =>
      if bool_decide (k = key) then (k, v) :: rest
      else (k, w) :: set key v rest
  end.

(** [v === s] for a string [s]. *)
Definition isString (v : option value) (s : list N) : bool :=
  match v with
  | Some (Str x) => bool_decide (x = s)
  | _ => false
  end.

(** [Object.keys(obj)] (up to the order of integer-like keys). *)
Definition keys (props : list (list N * value)) : list (list N) :=
  map fst props.

(** Whether the double nearest to [mantissa * 10 ^ exponent] is zero: the
    value is zero, or at most 2^-1075, half the least subnormal. *)
Definition isZero (mantissa exponent : Z) : bool :=
  (mantissa =? 0)%Z
  || (exponent <? 0)%Z
     && (Z.abs mantissa * 2 ^ 1075 <=? 10 ^ (- exponent))%Z.

(** [ToBoolean] *)
Definition truthy (v : value) : bool :=
  match v with
  | Null => false
  | Bool b => b
  | Number m e => negb (isZero m e)
  | Str s => negb (bool_decide (s = []))
  | Array _ | Object _ => true
  end.

(** *** The parser *)

Inductive presult (A : Type) : Type :=
  | POk (a : A) (rest : list N)
  | PErr
  | PFuel.
Arguments POk {A} a rest.
Arguments PErr {A}.
Arguments PFuel {A}.

Definition isWs (c : N) : bool :=
  (c =? 32) || (c =? 9) || (c =? 10) || (c =? 13).

Fixpoint skipWs (s : list N) : list N :=
  match s with
  | c :: r => if isWs c then skipWs r else s
  | [] => []
  end.

Definition isDigit (c : N) : bool := (48 <=? c) && (c <=? 57).

Definition hexVal (c : N) : option N :=
  if isDigit c then Some (c - 48)
  else if (97 <=? c) && (c <=? 102) then Some (c - 87)
  else if (65 <=? c) && (c <=? 70) then Some (c - 55)
  else None.

Definition escapeOf (c : N) : option N :=
  if c =? 34 then Some 34          (* quote *)
  else if c =? 92 then Some 92     (* backslash *)
  else if c =? 47 then Some 47     (* solidus *)
  else if c =? 98 then Some 8      (* b *)
  else if c =? 102 then Some 12    (* f *)
  else if c =? 110 then Some 10    (* n *)
  else if c =? 114 then Some 13    (* r *)
  else if c =? 116 then Some 9     (* t *)
  else None.

(** The rest of a string literal, after its opening quote. *)
Fixpoint stringBody (s : list N) : option (list N * list N) :=
  match s with
  | [] => None
  | c :: r =>
      if c =? 34 then Some ([], r)
      else if c =? 92 then
        match r with
        | e :: r' =>
            if e =? 117 then
              match r' with
              | h1 :: h2 :: h3 :: h4 :: r'' =>
                  match hexVal h1, hexVal h2, hexVal h3, hexVal h4 with
                  | Some a, Some b, Some c', Some d =>
                      match stringBody r'' with
                      | Some (str, rest) =>
                          Some (a * 4096 + b * 256 + c' * 16 + d :: str, rest)
                      | None => None
                      end
                  | _, _, _, _ => None
                  end
              | _ => None
              end
            else
              match escapeOf e with
              | Some u =>
                  match stringBody r' with
                  | Some (str, rest) => Some (u :: str, rest)
                  | None => None
                  end
              | None => None
              end
        | [] => None
        end
      else if c <? 32 then None
      else
        match stringBody r with
        | Some (str, rest) => Some (c :: str, rest)
        | None => None
        end
  end.

(** The longest run of digits at the front, and what follows. *)
Fixpoint digits (s : list N) : list N * list N :=
  match s with
  | c :: r =>
      if isDigit c then let '(ds, rest) := digits r in (c :: ds, rest)
      else ([], s)
  | [] => ([], [])
  end.

Definition decimal (ds : list N) : Z :=
  fold_left (fun acc d => (acc * 10 + Z.of_N (d - 48))%Z) ds 0%Z.

(** An optional fraction: a point and at least one digit. *)
Definition fraction (s : list N) : option (list N * list N) :=
  match s with
  | c :: r =>
      if c =? 46 then
        let '(fp, rest) := digits r in
        match fp with [] => None | _ => Some (fp, rest) end
      else Some ([], s)
  | [] => Some ([], s)
  end.

(** An optional exponent: e or E, an optional sign, at least one digit. *)
Definition exponent (s : list N) : option (Z * list N) :=
  match s with
  | c :: r =>
      if (c =? 101) || (c =? 69) then
        let '(negative, r1) :=
          match r with
          | g :: r' =>
              if g =? 45 then (true, r')
              else if g =? 43 then (false, r')
              else (false, r)
          | [] => (false, r)
          end in
        let '(ep, rest) := digits r1 in
        match ep with
        | [] => None
        | _ => Some ((if negative then - decimal ep else decimal ep)%Z, rest)
        end
      else Some (0%Z, s)
  | [] => Some (0%Z, s)
  end.

(** A number: an optional minus sign; either a single 0 or digits starting
    with 1-9; an optional fraction; an optional exponent. *)
Definition number (s : list N) : option (value * list N) :=
  let '(negative, s1) :=
    match s with
    | c :: r => if c =? 45 then (true, r) else (false, s)
    | [] => (false, s)
    end in
  let '(ip, s2) := digits s1 in
  match ip with
  | [] => None
  | d :: more =>
      if (d =? 48) && negb (bool_decide (more = [])) then None
      else
        match fraction s2 with
        | None => None
        | Some (fp, s3) =>
            match exponent s3 with
            | None => None
            | Some (e, s4) =>
                let m := decimal (ip ++ fp) in
                Some (Number (if negative then - m else m)%Z
                             (e - Z.of_nat (length fp))%Z, s4)
            end
        end
  end.

(** [keyword k v s]: the literal [k] at the front of [s] denotes [v]. *)
Definition keyword (k : list N) (v : value) (s : list N)
    : presult value :=
  if bool_decide (k `prefix_of` s) then POk v (drop (length k) s) else PErr.

(** One value at the front of [s] (after white space), then the rest of
    an array after an element is due, then the rest of an object after a
    member is due.  [fuel] bounds the depth of the calls. *)
Fixpoint parseValue (fuel : nat) (s : list N) : presult value :=
  match fuel with
  | O => PFuel
  | S fuel =>
      match skipWs s with
      | [] => PErr
      | c :: r =>
          if c =? 123 then
            match skipWs r with
            | c' :: r' =>
                if c' =? 125 then POk (Object []) r'
                else parseMembers fuel [] (c' :: r')
            | [] => PErr
            end
          else if c =? 91 then
            match skipWs r with
            | c' :: r' =>
                if c' =? 93 then POk (Array []) r'
                else parseElements fuel [] (c' :: r')
            | [] => PErr
            end
          else if c =? 34 then
            match stringBody r with
            | Some (str, rest) => POk (Str str) rest
            | None => PErr
            end
          else if c =? 116 then keyword (JS.lit "true") (Bool true) (c :: r)
          else if c =? 102 then keyword (JS.lit "false") (Bool false) (c :: r)
          else if c =? 110 then keyword (JS.lit "null") Null (c :: r)
          else
            match number (c :: r) with
            | Some (v, rest) => POk v rest
            | None => PErr
            end
      end
  end

with parseElements (fuel : nat) (acc : list value) (s : list N)
    : presult value :=
  match fuel with
  | O => PFuel
  | S fuel =>
      match parseValue fuel s with
      | POk v rest =>
          match skipWs rest with
          | c :: r =>
              if c =? 44 then parseElements fuel (acc ++ [v]) r
              else if c =? 93 then POk (Array (acc ++ [v])) r
              else PErr
          | [] => PErr
          end
      | PErr => PErr
      | PFuel => PFuel
      end
  end

with parseMembers (fuel : nat) (acc : list (list N * value)) (s : list N)
    : presult value :=
  match fuel with
  | O => PFuel
  | S fuel =>
      match skipWs s with
      | c :: r =>
          if c =? 34 then
            match stringBody r with
            | Some (key, r1) =>
                match skipWs r1 with
                | c1 :: r2 =>
                    if c1 =? 58 then
                      match parseValue fuel r2 with
                      | POk v rest =>
                          match skipWs rest with
                          | c2 :: r3 =>
                              if c2 =? 44 then
                                parseMembers fuel (set key v acc) r3
                              else if c2 =? 125 then
                                POk (Object (set key v acc)) r3
                              else PErr
                          | [] => PErr
                          end
                      | PErr => PErr
                      | PFuel => PFuel
                      end
                    else PErr
                | [] => PErr
                end
            | None => PErr
            end
          else PErr
      | [] => PErr
      end
  end.

(** The whole text must be one value, with white space around it at most. *)
Definition parseText (fuel : nat) (text : list N) : presult value :=
  match parseValue fuel text with
  | POk v rest =>
      match skipWs rest with
      | [] => POk v []
      | _ => PErr
      end
  | PErr => PErr
  | PFuel => PFuel
  end.

(** [JSON.parse(text)]; [None] stands for the [SyntaxError] it throws. *)
Definition parse (text : list N) : option value :=
  match parseText (2 * length text + 2) text with
  | POk v _ => Some v
  | _ => None
  end.

(** *** [JSON.stringify] of a string *)

Definition hexDigit (d : N) : N := if d <? 10 then 48 + d else 87 + d.

Definition unicodeEscape (c : N) : list N :=
  [92; 117; hexDigit (c / 4096); hexDigit ((c / 256) mod 16);
   hexDigit ((c / 16) mod 16); hexDigit (c mod 16)].

(** [QuoteJSONString]: the short escapes, [\uXXXX] for other control
    characters and for surrogates on their own. *)
Fixpoint quoteBody (s : list N) : list N :=
  match s with
  | [] => []
  | c :: r =>
      if c =? 34 then [92; 34] ++ quoteBody r
      else if c =? 92 then [92; 92] ++ quoteBody r
      else if c =? 8 then [92; 98] ++ quoteBody r
      else if c =? 12 then [92; 102] ++ quoteBody r
      else if c =? 10 then [92; 110] ++ quoteBody r
      else if c =? 13 then [92; 114] ++ quoteBody r
      else if c =? 9 then [92; 116] ++ quoteBody r
      else if c <? 32 then unicodeEscape c ++ quoteBody r
      else if UTF8.isHigh c then
        match r with
        | l :: r' =>
            if UTF8.isLow l then c :: l :: quoteBody r'
            else unicodeEscape c ++ quoteBody r
        | [] => unicodeEscape c
        end
      else if UTF8.isLow c then unicodeEscape c ++ quoteBody r
      else c :: quoteBody r
  end.

Definition quote (s : list N) : list N := [34] ++ quoteBody s ++ [34].

End JSON.

(* ===================================================================== *)
(** ** The file system behind [node:fs/promises] *)
(* ===================================================================== *)

Module FS.

Inductive node : Type :=
  | File (bytes : list N)
  | Dir.

(** The calls made, in order (bookkeeping only: no operation reads it). *)
Inductive op : Type :=
  | Mkdir (path : list N)
  | Readdir (path : list N)
  | ReadFile (path : list N)
  | WriteFile (path : list N) (data : list N).

(** Nodes are keyed by the encoded names on the way from "/". *)
Record world : Type := World {
  nodes : gmap (list (list N)) node;
  log : list op
}.

Definition key (path : list N) : list (list N) :=
  map UTF8.encode (Path.segments path).

(** "/" is a directory of every file system. *)
Definition nodeAt (m : gmap (list (list N)) node) (k : list (list N))
    : option node :=
  match k with
  | [] => Some Dir
  | _ => m !! k
  end.

Definition logged (o : op) (w : world) : world :=
  World (nodes w) (log w ++ [o]).

Definition hasNul (path : list N) : bool := bool_decide (0 ∈ path).

Definition ERR_INVALID_ARG_VALUE := JS.lit "ERR_INVALID_ARG_VALUE".
Definition ENOENT := JS.lit "ENOENT".
Definition ENOTDIR := JS.lit "ENOTDIR".
Definition EISDIR := JS.lit "EISDIR".
Definition EEXIST := JS.lit "EEXIST".

(** The walk of [mkdir -p]: [visited] is a directory already, the names in
    [todo] are created below it unless they exist. *)
Fixpoint mkdirFrom (visited todo : list (list N))
    (m : gmap (list (list N)) node)
    : list N + gmap (list (list N)) node :=
  match todo with
  | [] => inr m
  | name :: todo' =>
      let here := visited ++ [name] in
      match m !! here with
      | Some Dir => mkdirFrom here todo' m
      | Some (File _) =>
          inl (match todo' with [] => EEXIST | _ => ENOTDIR end)
      | None => mkdirFrom here todo' (<[here := Dir]> m)
      end
  end.

(** [fs.mkdir(path, { recursive: true })] *)
Definition mkdir (path : list N) (w : world) : (error + unit) * world :=
  let w := logged (Mkdir path) w in
  if hasNul path then (inl (FsFailure ERR_INVALID_ARG_VALUE path), w)
  else
    match mkdirFrom [] (key path) (nodes w) with
    | inl code => (inl (FsFailure code path), w)
    | inr m => (inr tt, World m (log w))
    end.

(** The name of [p] when it lies directly in the directory [k]. *)
Definition childOf (k p : list (list N)) : option (list N) :=
  if bool_decide (removelast p = k) then last p else None.

(** The names of the nodes directly in the directory [k]. *)
Definition entries (m : gmap (list (list N)) node) (k : list (list N))
    : list (list N) :=
  omap (fun e => childOf k (fst e)) (map_to_list m).

(** [fs.readdir(path, { withFileTypes: true })], mapped to the names. *)
Definition readdir (path : list N) (w : world)
    : (error + list (list N)) * world :=
  let w := logged (Readdir path) w in
  if hasNul path then (inl (FsFailure ERR_INVALID_ARG_VALUE path), w)
  else
    match nodeAt (nodes w) (key path) with
    | Some Dir =>
        (inr (map UTF8.decode (entries (nodes w) (key path))), w)
    | Some (File _) => (inl (FsFailure ENOTDIR path), w)
    | None => (inl (FsFailure ENOENT path), w)
    end.

(** [fs.readFile(path, "utf8")] *)
Definition readFile (path : list N) (w : world)
    : (error + list N) * world :=
  let w := logged (ReadFile path) w in
  if hasNul path then (inl (FsFailure ERR_INVALID_ARG_VALUE path), w)
  else
    match nodeAt (nodes w) (key path) with
    | Some (File bytes) => (inr (UTF8.decode bytes), w)
    | Some Dir => (inl (FsFailure EISDIR path), w)
    | None => (inl (FsFailure ENOENT path), w)
    end.

(** [fs.writeFile(path, data, "utf8")]: creates or replaces the file; its
    directory must exist. *)
Definition writeFile (path : list N) (data : list N) (w : world)
    : (error + unit) * world :=
  let w := logged (WriteFile path data) w in
  if hasNul path then (inl (FsFailure ERR_INVALID_ARG_VALUE path), w)
  else
    match nodeAt (nodes w) (key path) with
    | Some Dir => (inl (FsFailure EISDIR path), w)
    | _ =>
        match nodeAt (nodes w) (removelast (key path)) with
        | Some Dir =>
            (inr tt,
             World (<[key path := File (UTF8.encode data)]> (nodes w))
                   (log w))
        | Some (File _) => (inl (FsFailure ENOTDIR path), w)
        | None => (inl (FsFailure ENOENT path), w)
        end
    end.

End FS.

(* ===================================================================== *)
(** ** Computations that use the file system and may throw *)
(* ===================================================================== *)

Definition M (A : Type) : Type := FS.world -> (error + A) * FS.world.

Definition ret {A} (a : A) : M A := fun w => (inr a, w).
Definition throw {A} (e : error) : M A := fun w => (inl e, w).
Definition bind {A B} (m : M A) (k : A -> M B) : M B :=
  fun w =>
    match m w with
    | (inl e, w') => (inl e, w')
    | (inr a, w') => k a w'
    end.
Definition lift {A} (r : error + A) : M A := fun w => (r, w).

Notation "'do' x <- m ; k" := (bind m (fun x => k))
  (at level 10, x name, m at level 100, k at level 200).
Notation "'do' '_' <- m ; k" := (bind m (fun _ => k))
  (at level 10, m at level 100, k at level 200).

(* ===================================================================== *)
(** ** tools/sandbox.js: the sandbox root and the resolver *)
(* ===================================================================== *)

Section Sandbox.

(** [process.cwd()] and the directory of [sandbox.js]. *)
Variable cwd : list N.
Variable moduleDir : list N.

Definition repoRoot : list N :=
  Path.resolve cwd
    [moduleDir; Path.dotdot; Path.dotdot; Path.dotdot; Path.dotdot].

Definition SANDBOX_DIR : list N :=
  Path.resolve cwd [repoRoot; JS.lit "sandbox-lite"].

Definition resolveSandboxPath (userPath : list N) : error + list N :=
  let target := Path.resolve cwd [SANDBOX_DIR; userPath] in
  if negb (bool_decide (target = SANDBOX_DIR))
     && negb (JS.startsWith target (SANDBOX_DIR ++ Path.sep))
  then inl (PathEscapesSandbox userPath)
  else inr target.

End Sandbox.

(* ===================================================================== *)
(** ** tools/index.js: the tool set and its dispatch *)
(* ===================================================================== *)

(** A literal of the source that [JSON.stringify] prints. *)
Inductive literal : Type :=
  | LStr (s : list N)
  | LBool (b : bool)
  | LArr (items : list literal)
  | LObj (props : list (list N * literal)).

Fixpoint stringify (v : literal) : list N :=
  match v with
  | LStr s => JSON.quote s
  | LBool b => JS.lit (if b then "true" else "false")
  | LArr items => JS.lit "[" ++ JS.join (JS.lit ",") (map stringify items)
                    ++ JS.lit "]"
  | LObj props =>
      JS.lit "{"
        ++ JS.join (JS.lit ",")
             (map (fun p => JSON.quote (fst p) ++ JS.lit ":" ++ stringify (snd p))
                  props)
        ++ JS.lit "}"
  end.

Record tool : Type := Tool {
  name : list N;
  description : list N;
  schema : literal
}.

Definition list_files := JS.lit "list_files".
Definition read_file := JS.lit "read_file".
Definition write_file := JS.lit "write_file".

(** Property names. *)
Module Key.
Definition filePath := JS.lit "filePath".
Definition content := JS.lit "content".
Definition type := JS.lit "type".
Definition name := JS.lit "name".
Definition args := JS.lit "args".
End Key.

Definition stringType : literal :=
  LObj [(JS.lit "type", LStr (JS.lit "string"))].

Definition TOOL_DEFINITIONS : list tool :=
  [ Tool list_files (JS.lit "List top-level files in sandbox-lite.")
      (LObj [(JS.lit "type", LStr (JS.lit "object"));
             (JS.lit "properties", LObj []);
             (JS.lit "additionalProperties", LBool false)]);
    Tool read_file
      (JS.lit "Read a file under sandbox-lite. Provide a relative filePath.")
      (LObj [(JS.lit "type", LStr (JS.lit "object"));
             (JS.lit "properties", LObj [(Key.filePath, stringType)]);
             (JS.lit "required", LArr [LStr Key.filePath]);
             (JS.lit "additionalProperties", LBool false)]);
    Tool write_file
      (JS.lit "Write a file under sandbox-lite. Provide relative filePath and content.")
      (LObj [(JS.lit "type", LStr (JS.lit "object"));
             (JS.lit "properties",
              LObj [(Key.filePath, stringType); (Key.content, stringType)]);
             (JS.lit "required", LArr [LStr Key.filePath; LStr Key.content]);
             (JS.lit "additionalProperties", LBool false)]) ].

Definition TOOL_NAMES : list (list N) := map name TOOL_DEFINITIONS.

Definition getToolDefinitions : list tool := TOOL_DEFINITIONS.

(** [value] is what a property access gave: [None] is [undefined]. *)
Definition assertNonEmptyString (value : option JSON.value)
    (field : list N) : error + unit :=
  match value with
  | Some (JSON.Str s) =>
      if Nat.eqb (length (JS.trim s)) 0 then inl (MustBeNonEmptyString field)
      else inr tt
  | _ => inl (MustBeNonEmptyString field)
  end.

Definition validateArgs (name : list N) (args : JSON.value) : error + unit :=
  match args with
  | JSON.Object props =>
      if bool_decide (name = list_files) then
        if Nat.ltb 0 (length (JSON.keys props)) then inl ListFilesNoArguments
        else inr tt
      else if bool_decide (name = read_file) then
        assertNonEmptyString (JSON.lookup Key.filePath props) Key.filePath
      else if bool_decide (name = write_file) then
        match assertNonEmptyString (JSON.lookup Key.filePath props) Key.filePath with
        | inl e => inl e
        | inr _ => assertNonEmptyString (JSON.lookup Key.content props) Key.content
        end
      else inr tt
  | _ => inl ArgsMustBeObject
  end.

(** [args[key]] where a built-in wants a string. *)
Definition stringArg (key : list N) (args : JSON.value) : error + list N :=
  match args with
  | JSON.Object props =>
      match JSON.lookup key props with
      | Some (JSON.Str s) => inr s
      | _ => inl (TypeError key)
      end
  | _ => inl (TypeError key)
  end.

Section Tools.

Variable cwd : list N.
Variable moduleDir : list N.

Definition ensureSandbox : M unit := FS.mkdir (SANDBOX_DIR cwd moduleDir).

Definition runTool (name : list N) (args : JSON.value) : M (list N) :=
  if negb (bool_decide (name ∈ TOOL_NAMES)) then throw (UnknownTool name)
  else
    do _ <- lift (validateArgs name args);
    do _ <- ensureSandbox;
    if bool_decide (name = list_files) then
      do names <- FS.readdir (SANDBOX_DIR cwd moduleDir);
      ret (match names with
           | [] => JS.lit "(empty)"
           | _ => JS.join [10] names
           end)
    else if bool_decide (name = read_file) then
      do userPath <- lift (stringArg Key.filePath args);
      do target <- lift (resolveSandboxPath cwd moduleDir userPath);
      FS.readFile target
    else if bool_decide (name = write_file) then
      do userPath <- lift (stringArg Key.filePath args);
      do target <- lift (resolveSandboxPath cwd moduleDir userPath);
      do _ <- FS.mkdir (Path.dirname target);
      do data <- lift (stringArg Key.content args);
      do _ <- FS.writeFile target data;
      ret (JS.lit "Wrote " ++ userPath)
    else throw (UnhandledTool name).

End Tools.

(* ===================================================================== *)
(** ** agent.js: the parser of model output and the agent loop *)
(* ===================================================================== *)

Definition DEFAULT_MAX_ITERATIONS : Z := 6.
Definition DEFAULT_MAX_OUTPUT_TOKENS : Z := 600.

Definition buildSystemPrompt (tools : list tool) : list N :=
  let toolLines :=
    JS.join [10]
      (map (fun t =>
              JS.lit "- " ++ name t ++ JS.lit ": " ++ description t
                ++ [10] ++ JS.lit "  schema: " ++ stringify (schema t))
           tools) in
  JS.join [10]
    [ JS.lit "You are a tool-using agent.";
      JS.lit "You must respond with valid JSON only.";
      JS.lit "Use exactly one of the following JSON shapes:";
      JS.jq "{ 'type': 'tool', 'name': 'tool_name', 'args': { ... } }";
      JS.jq "{ 'type': 'final', 'content': 'your answer' }";
      JS.lit "If a tool is needed, respond with type=tool.";
      JS.lit "When you are done, respond with type=final.";
      JS.lit "Do not wrap JSON in markdown fences.";
      JS.lit "Available tools:";
      toolLines ].

Definition fence : list N := JS.lit "```".

(** ASCII lower case, which is all that the [i] flag of a pattern of ASCII
    letters looks through. *)
Definition lower (c : N) : N :=
  if (65 <=? c) && (c <=? 90) then c + 32 else c.

(** [text.replace(/^```json/i, "```")] *)
Definition replaceJsonFence (text : list N) : list N :=
  if bool_decide (map lower (take 7 text) = JS.lit "```json")
  then fence ++ drop 7 text
  else text.

(** [text.replace(/^```/, "")] *)
Definition replaceFence (text : list N) : list N :=
  if JS.startsWith text fence then drop 3 text else text.

Definition normalizeModelOutput (content : list N) : list N :=
  let text := JS.trim content in
  if JS.startsWith text fence then
    let text := replaceJsonFence text in
    let text := replaceFence text in
    let text := if JS.endsWith text fence then JS.dropEnd 3 text else text in
    JS.trim text
  else text.

Definition tool_ := JS.lit "tool".
Definition final_ := JS.lit "final".

(** The payload is returned as decoded, with [args] set to the empty
    object when it was absent or null. *)
Definition parseModelOutput (content : list N)
    : error + list (list N * JSON.value) :=
  let text := normalizeModelOutput content in
  match JSON.parse text with
  | None => inl ExpectedJSON
  | Some (JSON.Object payload) =>
      let type := JSON.lookup Key.type payload in
      if negb (JSON.isString type tool_) && negb (JSON.isString type final_)
      then inl UnknownType
      else if JSON.isString type tool_ then
        match JSON.lookup Key.name payload with
        | Some (JSON.Str n) =>
            if Nat.eqb (length (JS.trim n)) 0 then inl ToolCallMissingName
            else
              match JSON.lookup Key.args payload with
              | None | Some JSON.Null =>
                  inr (JSON.set Key.args (JSON.Object []) payload)
              | Some _ => inr payload
              end
        | _ => inl ToolCallMissingName
        end
      else
        match JSON.lookup Key.content payload with
        | Some (JSON.Str _) => inr payload
        | _ => inl FinalResponseMissingContent
        end
  | Some _ => inl ExpectedJSONObject
  end.

Inductive msgRole : Type := system | user | assistant.

Record message : Type := Message {
  role : msgRole;
  text : list N
}.

Inductive step : Type :=
  | ToolStep (name : list N) (args : JSON.value) (result : list N)
  | FinalStep (content : list N).

(** What [runLiteAgent] resolves to. *)
Record answer : Type := Answer {
  output : list N;
  steps : option (list step)
}.

(** What [client.chat.completions.create] does with a request: it rejects,
    or it resolves to a response whose first choice may lack content. *)
Inductive completion : Type :=
  | Rejected (reason : list N)
  | Completed (content : option (list N)).

(** [process.env] *)
Record environment : Type := Environment {
  OPENAI_API_KEY : option (list N);
  OPENAI_MODEL : option (list N);
  OPENAI_LITE_MODEL : option (list N);
  OPENAI_LITE_BASE_URL : option (list N)
}.

(** The argument of [runLiteAgent]; an absent [maxIterations] takes the
    default. *)
Record request : Type := Request {
  input : option JSON.value;
  includeSteps : bool;
  maxIterations : option Z
}.

(** The variables of one invocation, with the file system and the number of
    model calls made so far. *)
Record state : Type := State {
  messages : list message;
  trace : list step;
  world : FS.world;
  calls : nat
}.

(** How an invocation ended, and the state it ended in. *)
Record run : Type := Run {
  outcome : error + answer;
  final : state
}.

(** [JSON.stringify({ type: "observation", name, result })] *)
Definition observation (name result : list N) : list N :=
  JS.jq "{'type':'observation','name':" ++ JSON.quote name
    ++ JS.jq ",'result':" ++ JSON.quote result ++ JS.lit "}".

(** [x || y] *)
Definition orElse (x : option JSON.value) (y : JSON.value) : JSON.value :=
  match x with
  | Some v => if JSON.truthy v then v else y
  | None => y
  end.

(** A property of the payload that the parser has checked to be a string. *)
Definition stringOf (v : option JSON.value) : list N :=
  match v with
  | Some (JSON.Str s) => s
  | _ => []
  end.

Definition counted (st : state) : state :=
  State (messages st) (trace st) (world st) (S (calls st)).

(** [messages.push(m)] *)
Definition pushMessage (m : message) (st : state) : state :=
  State (messages st ++ [m]) (trace st) (world st) (calls st).

(** [steps.push(s)] *)
Definition pushStep (s : step) (st : state) : state :=
  State (messages st) (trace st ++ [s]) (world st) (calls st).

Definition withWorld (w : FS.world) (st : state) : state :=
  State (messages st) (trace st) w (calls st).

Section Agent.

Variable cwd : list N.
Variable moduleDir : list N.

(** The remote model: the answer to the [n]-th request of this invocation
    ([n] counted from zero), given the model name and the messages sent;
    every request has temperature 0 and [DEFAULT_MAX_OUTPUT_TOKENS]. *)
Variable client : list N -> nat -> list message -> completion.

Definition callModel (model : list N) (n : nat) (messages : list message)
    : error + list N :=
  match client model n messages with
  | Rejected reason => inl (AdapterFailure reason)
  | Completed (Some choice) =>
      if bool_decide (choice = []) then inl EmptyModelResponse
      else inr choice
  | Completed None => inl EmptyModelResponse
  end.

(** The [for] loop, entered with the loop variable at [iteration]; [fuel]
    bounds the passes. *)
Fixpoint loop (fuel : nat) (model : list N) (includeSteps : bool)
    (maxIterations iteration : Z) (st : state) : option run :=
  match fuel with
  | O => None
  | S fuel =>
      if (iteration <? maxIterations)%Z then
        match callModel model (calls st) (messages st) with
        | inl e => Some (Run (inl e) (counted st))
        | inr text =>
            let st := counted st in
            match parseModelOutput text with
            | inl e => Some (Run (inl e) st)
            | inr action =>
                let st := pushMessage (Message assistant text) st in
                if JSON.isString (JSON.lookup Key.type action) final_ then
                  let answerText := stringOf (JSON.lookup Key.content action) in
                  let st := pushStep (FinalStep answerText) st in
                  Some (Run (inr (Answer answerText
                                    (if includeSteps then Some (trace st)
                                     else None)))
                            st)
                else
                  let toolName := stringOf (JSON.lookup Key.name action) in
                  let toolArgs :=
                    orElse (JSON.lookup Key.args action) (JSON.Object []) in
                  match runTool cwd moduleDir toolName toolArgs (world st) with
                  | (inl e, w) => Some (Run (inl e) (withWorld w st))
                  | (inr result, w) =>
                      loop fuel model includeSteps maxIterations
                        (iteration + 1)
                        (pushMessage
                           (Message user (observation toolName result))
                           (pushStep (ToolStep toolName toolArgs result)
                              (withWorld w st)))
                  end
            end
        end
      else Some (Run (inl ExceededMaxIterations) st)
  end.

Definition isBlank (v : option (list N)) : bool :=
  match v with
  | Some (_ :: _) => false
  | _ => true
  end.

Definition runLiteAgent (env : environment) (req : request) (w : FS.world)
    : option run :=
  let idle := State [] [] w 0 in
  match input req with
  | Some (JSON.Str text) =>
      if Nat.eqb (length (JS.trim text)) 0 then
        Some (Run (inl InputMustBeNonEmptyString) idle)
      else
        let model :=
          if isBlank (OPENAI_LITE_MODEL env) then OPENAI_MODEL env
          else OPENAI_LITE_MODEL env in
        if isBlank (OPENAI_API_KEY env) then
          Some (Run (inl MissingApiKey) idle)
        else
          match model with
          | Some ((_ :: _) as model) =>
              let tools := getToolDefinitions in
              let maxIterations :=
                match maxIterations req with
                | Some n => n
                | None => DEFAULT_MAX_ITERATIONS
                end in
              loop (S (Z.to_nat maxIterations)) model (includeSteps req)
                maxIterations 0
                (State [ Message system (buildSystemPrompt tools);
                         Message user text ]
                       [] w 0)
          | _ => Some (Run (inl MissingModel) idle)
          end
  | _ => Some (Run (inl InputMustBeNonEmptyString) idle)
  end.

End Agent.

(* ===================================================================== *)
(** ** Notions used to state the properties *)
(* ===================================================================== *)

(** A segment a normalized path is made of. *)
Definition clean (s : list N) : Prop :=
  s ≠ [] ∧ (Path.slash ∉ s) ∧ s ≠ Path.dot ∧ s ≠ Path.dotdot.

Definition sandboxName : list N := JS.lit "sandbox-lite".

(** A fenced block: the fence, a tag, a line break, the body, a line
    break, the fence. *)
Definition fenced (tag body : list N) : list N :=
  fence ++ tag ++ [10] ++ body ++ [10] ++ fence.

(** Empty, or white space only. *)
Definition blank (s : list N) : Prop :=
  Forall (fun c => JS.isWhiteSpace c = true) s.

(** How [runTool] treats a call: refused for its name or its arguments, or
    accepted to the file system. *)
Definition refused (name : list N) (args : JSON.value) (r : error + list N)
    : Prop :=
  ((name ∉ TOOL_NAMES) ∧ r = inl (UnknownTool name))
  ∨ (name ∈ TOOL_NAMES ∧ ∃ e, validateArgs name args = inl e ∧ r = inl e).

Definition accepted (name : list N) (args : JSON.value) : Prop :=
  name ∈ TOOL_NAMES ∧ validateArgs name args = inr tt.

Section Turns.

Variable cwd : list N.
Variable moduleDir : list N.
Variable client : list N -> nat -> list message -> completion.

(** One pass of the loop in which the model asks for a tool and the tool
    returns: the state in which the next pass starts. *)
Definition toolTurn (model : list N) (st : state) : option state :=
  match callModel client model (calls st) (messages st) with
  | inr text =>
      match parseModelOutput text with
      | inr action =>
          if JSON.isString (JSON.lookup Key.type action) final_ then None
          else
            let st := pushMessage (Message assistant text) (counted st) in
            let toolName := stringOf (JSON.lookup Key.name action) in
            let toolArgs :=
              orElse (JSON.lookup Key.args action) (JSON.Object []) in
            match runTool cwd moduleDir toolName toolArgs (world st) with
            | (inr result, w) =>
                Some (pushMessage
                        (Message user (observation toolName result))
                        (pushStep (ToolStep toolName toolArgs result)
                           (withWorld w st)))
            | (inl _, _) => None
            end
      | inl _ => None
      end
  | inl _ => None
  end.

(** [n] such passes in a row. *)
Fixpoint toolTurns (n : nat) (model : list N) (st : state) : option state :=
  match n with
  | O => Some st
  | S n =>
      match toolTurn model st with
      | Some st' => toolTurns n model st'
      | None => None
      end
  end.

End Turns.

(** The state in which the loop is entered. *)
Definition initialState (text : list N) (w : FS.world) : state :=
  State [ Message system (buildSystemPrompt getToolDefinitions);
          Message user text ]
        [] w 0.

(** The cap on the passes that a request asks for. *)
Definition capOf (req : request) : Z :=
  match maxIterations req with
  | Some n => n
  | None => DEFAULT_MAX_ITERATIONS
  end.

(** The model name an environment selects. *)
Definition modelOf (env : environment) : option (list N) :=
  if isBlank (OPENAI_LITE_MODEL env) then OPENAI_MODEL env
  else OPENAI_LITE_MODEL env.

(** A request and an environment that pass the checks made before the
    loop: [text] is the input and [model] the model name. *)
Definition validRequest (env : environment) (req : request)
    (text model : list N) : Prop :=
  input req = Some (JSON.Str text)
  ∧ JS.trim text ≠ []
  ∧ isBlank (OPENAI_API_KEY env) = false
  ∧ modelOf env = Some model
  ∧ model ≠ [].

(** *** Examples: an installation, an empty file system, scripted models *)

Definition exampleDir : list N :=
  JS.lit "/srv/hello-agent/packages/agent-lite/src/tools".

Definition emptyWorld : FS.world := FS.World ∅ [].

Definition writeArgs (p c : list N) : JSON.value :=
  JSON.Object [(Key.filePath, JSON.Str p); (Key.content, JSON.Str c)].

Definition readArgs (p : list N) : JSON.value :=
  JSON.Object [(Key.filePath, JSON.Str p)].

(** The world after the tool calls [calls], made in order from [w]. *)
Definition after (calls : list (list N * JSON.value)) (w : FS.world)
    : FS.world :=
  fold_left (fun w call => snd (runTool [] exampleDir (fst call) (snd call) w))
    calls w.

Definition exampleEnv : environment :=
  Environment (Some (JS.lit "sk-test")) (Some (JS.lit "test-model")) None None.

(** A model that gives the same answer to every request. *)
Definition always (reply : list N)
    : list N -> nat -> list message -> completion :=
  fun _ _ _ => Completed (Some reply).

Definition exampleRequest (cap : option Z) : request :=
  Request (Some (JSON.Str (JS.lit "List the files."))) false cap.

(** A model that answers the [n]-th request with the [n]-th of [replies]. *)
Definition scripted (replies : list (list N))
    : list N -> nat -> list message -> completion :=
  fun _ n _ => Completed (replies !! n).

Definition listFilesCall : list N :=
  JS.jq "{'type':'tool','name':'list_files','args':{}}".

Definition readMissingCall : list N :=
  JS.jq "{'type':'tool','name':'read_file','args':{'filePath':'missing.txt'}}".

Definition unknownToolCall : list N :=
  JS.jq "{'type':'tool','name':'nope','args':{}}".

Definition writeHelloCall : list N :=
  JS.jq "{'type':'tool','name':'write_file','args':{'filePath':'hello.txt','content':'hi'}}".

Definition doneCall : list N := JS.jq "{'type':'final','content':'Done.'}".


(* ===================================================================== *)
(** ** Runs of tool calls *)
(* ===================================================================== *)

Section Calls.

Variable cwd : list N.
Variable moduleDir : list N.

(** The world after the tool calls [calls], made in order from [w]. *)
Definition runCalls (calls : list (list N * JSON.value)) (w : FS.world)
    : FS.world :=
  fold_left (fun w call => snd (runTool cwd moduleDir (fst call) (snd call) w))
    calls w.

(** A [write_file] call whose path resolves to the file at [k]. *)
Definition writesAt (k : list (list N)) (call : list N * JSON.value) : Prop :=
  fst call = write_file
  ∧ ∃ q target,
      stringArg Key.filePath (snd call) = inr q
      ∧ resolveSandboxPath cwd moduleDir q = inr target
      ∧ FS.key target = k.

(** None of the calls [calls], made in order from [w], is a write to the
    file at [k] that returns. *)
Fixpoint unwritten (k : list (list N)) (calls : list (list N * JSON.value))
    (w : FS.world) : Prop :=
  match calls with
  | [] => True
  | call :: rest =>
      ¬ (writesAt k call
         ∧ ∃ v, fst (runTool cwd moduleDir (fst call) (snd call) w) = inr v)
      ∧ unwritten k rest (snd (runTool cwd moduleDir (fst call) (snd call) w))
  end.

End Calls.
Section SplitFacts.
Import JS.

Lemma split_nonempty c s : split c s ≠ [].
Proof.
  destruct s as [|x s]; simpl; [done|].
  destruct (N.eqb x c); [done|]. by destruct (split c s).
Qed.

Lemma split_app c a b : split c (a ++ c :: b) = split c a ++ split c b.
Proof.
  induction a as [|x a IH]; simpl.
  - by rewrite N.eqb_refl.
  - destruct (N.eqb x c); [by rewrite IH|].
    rewrite IH. destruct (split c a) as [|h t] eqn:E; [|done].
    by destruct (split_nonempty c a).
Qed.

Lemma split_free c s : c ∉ s → split c s = [s].
Proof.
  induction s as [|x s IH]; intros Hc; simpl; [done|].
  destruct (N.eqb_spec x c) as [->|Hne].
  - exfalso. apply Hc. left.
  - rewrite IH; [done|]. intros Hin. apply Hc. by right.
Qed.

Lemma split_parts_free c s : Forall (fun p => c ∉ p) (split c s).
Proof.
  induction s as [|x s IH]; simpl.
  - repeat constructor. by intros ?%elem_of_nil.
  - destruct (N.eqb_spec x c) as [->|Hne].
    + constructor; [by intros ?%elem_of_nil | done].
    + destruct (split c s) as [|h t]; [repeat constructor|].
      * intros [->|?%elem_of_nil]%elem_of_cons; done.
      * inversion IH; subst. constructor; [|done].
        intros [->|?]%elem_of_cons; done.
Qed.

End SplitFacts.
(* ===================================================================== *)
(** ** Facts about [path.resolve] *)
(* ===================================================================== *)

Section PathFacts.
Import JS Path.

Lemma join_cons p ps :
  ps ≠ [] → join sep (p :: ps) = p ++ slash :: join sep ps.
Proof. destruct ps; [done|]. reflexivity. Qed.

Lemma join_snoc l x :
  l ≠ [] → join sep (l ++ [x]) = join sep l ++ slash :: x.
Proof.
  induction l as [|p l IH]; [done|]. intros _.
  destruct l as [|q l]; [reflexivity|].
  change ((p :: q :: l) ++ [x]) with (p :: ((q :: l) ++ [x])).
  rewrite join_cons by (by destruct l).
  rewrite IH by done. rewrite (join_cons p (q :: l)) by done.
  by rewrite <- app_assoc.
Qed.

Lemma split_join l :
  l ≠ [] → Forall (fun s => slash ∉ s) l → split slash (join sep l) = l.
Proof.
  induction l as [|p l IH]; [done|]. intros _ Hl.
  inversion Hl as [|? ? Hp Hl']; subst.
  destruct l as [|q l].
  - simpl. by apply split_free.
  - rewrite join_cons by done. rewrite split_app.
    rewrite split_free by done. rewrite IH by done. reflexivity.
Qed.

Lemma segments_app a b :
  segments (a ++ slash :: b) = segments a ++ segments b.
Proof. unfold segments. by rewrite split_app, filter_app. Qed.

Lemma segments_nil : segments [] = [].
Proof. reflexivity. Qed.

Lemma segments_slash b : segments (slash :: b) = segments b.
Proof. apply (segments_app [] b). Qed.

Lemma segments_free s : s ≠ [] → slash ∉ s → segments s = [s].
Proof.
  intros Hne Hs. unfold segments. rewrite split_free by done.
  rewrite filter_cons. by case_decide.
Qed.

Lemma segments_join l : Forall clean l → segments (join sep l) = l.
Proof.
  induction l as [|p l IH]; [done|]. intros Hl.
  inversion Hl as [|? ? [Hne [Hp _]] Hl']; subst.
  destruct l as [|q l].
  - simpl. by apply segments_free.
  - rewrite join_cons by done. rewrite segments_app.
    rewrite segments_free by done. by rewrite IH.
Qed.

Lemma segments_ofSegments l : Forall clean l → segments (ofSegments l) = l.
Proof.
  intros Hl. unfold ofSegments. rewrite segments_slash.
  by apply segments_join.
Qed.

Lemma segments_clean p :
  Forall (fun s => s ≠ [] ∧ slash ∉ s) (segments p).
Proof.
  unfold segments. apply Forall_forall. intros s Hs.
  apply list_elem_of_filter in Hs as [Hne Hin]. split; [done|].
  pose proof (split_parts_free slash p) as Hfree.
  rewrite Forall_forall in Hfree. by apply Hfree.
Qed.

(** *** Normalization *)

Lemma normalizeStep_clean acc seg :
  Forall clean acc → slash ∉ seg →
  Forall clean (normalizeStep false acc seg).
Proof.
  intros Hacc Hseg. unfold normalizeStep.
  destruct (bool_decide (seg = [])) eqn:E1; simpl; [done|].
  destruct (bool_decide (seg = dot)) eqn:E2; simpl; [done|].
  destruct (bool_decide (seg = dotdot)) eqn:E3.
  - destruct (last acc) eqn:El; [|constructor].
    apply Forall_forall. intros x Hx. rewrite Forall_forall in Hacc.
    apply Hacc. apply list_elem_of_In. apply list_elem_of_In in Hx.
    clear -Hx. induction acc as [|a acc IH]; [done|].
    destruct acc as [|b acc]; [done|].
    destruct Hx as [->|Hx]; [by left|]. right. by apply IH.
  - apply Forall_app. split; [done|]. constructor; [|done].
    apply bool_decide_eq_false in E1, E2, E3. done.
Qed.

Lemma normalize_fold_clean segs acc :
  Forall clean acc → Forall (fun s => slash ∉ s) segs →
  Forall clean (fold_left (normalizeStep false) segs acc).
Proof.
  revert acc. induction segs as [|s segs IH]; intros acc Hacc Hsegs; [done|].
  inversion Hsegs; subst. simpl. apply IH; [|done].
  by apply normalizeStep_clean.
Qed.

Lemma normalizeSegments_clean p : Forall clean (normalizeSegments false p).
Proof.
  apply normalize_fold_clean; [constructor|apply split_parts_free].
Qed.

Lemma normalizeStep_clean_seg acc s :
  clean s → normalizeStep false acc s = acc ++ [s].
Proof.
  intros (Hne & _ & Hd & Hdd). unfold normalizeStep.
  rewrite !bool_decide_eq_false_2 by done. reflexivity.
Qed.

Lemma normalize_fold_clean_segs l acc :
  Forall clean l → fold_left (normalizeStep false) l acc = acc ++ l.
Proof.
  revert acc. induction l as [|s l IH]; intros acc Hl; simpl.
  - by rewrite app_nil_r.
  - inversion Hl; subst. rewrite normalizeStep_clean_seg by done.
    rewrite IH by done. by rewrite <- app_assoc.
Qed.

Lemma normalizeStep_empty acc : normalizeStep false acc [] = acc.
Proof. reflexivity. Qed.

(** Normalizing a path that starts with a normalized absolute path goes on
    from the segments of that path. *)
Lemma normalize_after_ofSegments l rest :
  Forall clean l →
  normalizeSegments false (ofSegments l ++ slash :: rest)
  = fold_left (normalizeStep false) (split slash rest) l.
Proof.
  intros Hl. unfold normalizeSegments. rewrite split_app, fold_left_app.
  f_equal. unfold ofSegments.
  change (slash :: join sep l) with ([] ++ slash :: join sep l).
  rewrite split_app, fold_left_app.
  change (fold_left (normalizeStep false) (split slash []) []) with (@nil (list N)).
  destruct l as [|p l]; [reflexivity|].
  rewrite split_join; [|done|].
  - by rewrite normalize_fold_clean_segs.
  - eapply Forall_impl; [exact Hl|]. by intros s (_ & ? & _).
Qed.

Lemma normalizeSegments_absolute p :
  isAbsolute p = true →
  normalizeSegments false p
  = fold_left (normalizeStep false) (split slash (tail p)) [].
Proof.
  destruct p as [|c p]; [done|]. simpl. intros ->%N.eqb_eq.
  unfold normalizeSegments.
  change (slash :: p) with ([] ++ slash :: p). rewrite split_app.
  reflexivity.
Qed.

End PathFacts.

(* ===================================================================== *)
(** ** The sandbox resolver *)
(* ===================================================================== *)

Section ResolveFacts.
Import JS Path.

Lemma join_app l k :
  l ≠ [] → k ≠ [] → join sep (l ++ k) = join sep l ++ slash :: join sep k.
Proof.
  induction l as [|p l IH]; [done|]. intros _ Hk.
  destruct l as [|q l].
  - simpl app. by rewrite join_cons.
  - change ((p :: q :: l) ++ k) with (p :: ((q :: l) ++ k)).
    rewrite join_cons by done. rewrite IH by done.
    rewrite (join_cons p (q :: l)) by done. by rewrite <- app_assoc.
Qed.

Lemma normalize_trailing p :
  normalizeSegments false (p ++ [slash]) = normalizeSegments false p.
Proof.
  unfold normalizeSegments. rewrite split_app, fold_left_app. reflexivity.
Qed.

(** [path.resolve(a, b)] for an absolute [a]. *)
Lemma resolve_two cwd a b :
  isAbsolute a = true →
  resolve cwd [a; b]
  = ofSegments (normalizeSegments false
                  (if isAbsolute b then b else a ++ slash :: b)).
Proof.
  intros Ha. unfold resolve. simpl rev.
  destruct b as [|c b].
  - simpl. destruct a as [|c a]; [done|]. simpl in Ha |- *. rewrite Ha.
    reflexivity.
  - cbn [resolveLoop]. destruct (isAbsolute (c :: b)) eqn:Hb.
    + unfold normalizeString, ofSegments, sep. simpl negb.
      by rewrite app_nil_r, normalize_trailing.
    + destruct a as [|d a]; [done|]. cbn [resolveLoop]. rewrite Ha.
      unfold normalizeString, ofSegments, sep. simpl negb.
      rewrite app_nil_r.
      replace ((d :: a) ++ [slash] ++ (c :: b) ++ [slash])
        with (((d :: a) ++ slash :: c :: b) ++ [slash])
        by (by rewrite <- !app_assoc).
      by rewrite normalize_trailing.
Qed.

(** The string test of the resolver against the segments. *)
Lemma under_iff r t :
  Forall clean r → Forall clean t → r ≠ [] →
  (ofSegments t = ofSegments r ∨ (ofSegments r ++ sep) `prefix_of` ofSegments t)
  ↔ r `prefix_of` t.
Proof.
  intros Hr Ht Hne. split.
  - intros [Heq|[k Hk]].
    + apply (f_equal segments) in Heq.
      rewrite !segments_ofSegments in Heq by done. by subst.
    + apply (f_equal segments) in Hk. rewrite <- app_assoc in Hk.
      change (sep ++ k) with (slash :: k) in Hk.
      rewrite segments_app, !segments_ofSegments in Hk by done.
      by exists (segments k).
  - intros [k ->]. destruct k as [|x k].
    + left. by rewrite app_nil_r.
    + right. exists (join sep (x :: k)). unfold ofSegments.
      rewrite join_app by done. simpl. by rewrite <- app_assoc.
Qed.

End ResolveFacts.

Section SandboxFacts.
Import JS Path.

Variable cwd : list N.
Variable moduleDir : list N.
Hypothesis moduleDir_absolute : isAbsolute moduleDir = true.

Lemma sandboxName_clean : clean sandboxName.
Proof.
  repeat split; try done. unfold sandboxName, slash. vm_compute.
  intros H. repeat (apply elem_of_cons in H as [H|H]; [done|]).
  by apply elem_of_nil in H.
Qed.

(** The repository root is a normalized absolute path, and the sandbox
    root is its entry [sandbox-lite]. *)
Lemma SANDBOX_DIR_segments :
  ∃ parent,
    Forall clean parent
    ∧ repoRoot cwd moduleDir = ofSegments parent
    ∧ SANDBOX_DIR cwd moduleDir = ofSegments (parent ++ [sandboxName]).
Proof.
  destruct moduleDir as [|c m] eqn:Em; [done|].
  set (rp := (c :: m) ++ sep ++ dotdot ++ sep ++ dotdot ++ sep ++ dotdot
             ++ sep ++ dotdot ++ sep ++ []).
  exists (normalizeSegments false rp).
  assert (Hroot : repoRoot cwd (c :: m) = ofSegments (normalizeSegments false rp)).
  { unfold repoRoot, resolve. simpl rev. cbn [resolveLoop isAbsolute dotdot lit
      list_ascii_of_string map N_of_ascii N.eqb slash Pos.eqb].
    cbn [isAbsolute] in moduleDir_absolute. rewrite moduleDir_absolute.
    reflexivity. }
  split; [apply normalizeSegments_clean|]. split; [done|].
  unfold SANDBOX_DIR. rewrite resolve_two by (by rewrite Hroot).
  change (isAbsolute (lit "sandbox-lite")) with false. cbv iota.
  rewrite Hroot, normalize_after_ofSegments by apply normalizeSegments_clean.
  rewrite split_free.
  - simpl fold_left. by rewrite normalizeStep_clean_seg by apply sandboxName_clean.
  - apply sandboxName_clean.
Qed.

Lemma SANDBOX_DIR_absolute : isAbsolute (SANDBOX_DIR cwd moduleDir) = true.
Proof. by destruct SANDBOX_DIR_segments as (parent & _ & _ & ->). Qed.

(** The target of a user path, through its segments: an absolute user path
    is normalized on its own, any other is walked from the sandbox root. *)
Lemma target_segments userPath :
  ∃ t,
    Forall clean t
    ∧ resolve cwd [SANDBOX_DIR cwd moduleDir; userPath] = ofSegments t
    ∧ t = fold_left (normalizeStep false) (split slash userPath)
            (if isAbsolute userPath then []
             else segments (SANDBOX_DIR cwd moduleDir)).
Proof.
  destruct SANDBOX_DIR_segments as (parent & Hparent & _ & Hroot).
  assert (Hr : Forall clean (parent ++ [sandboxName])).
  { apply Forall_app. split; [done|]. constructor; [|done].
    apply sandboxName_clean. }
  rewrite resolve_two by apply SANDBOX_DIR_absolute.
  destruct (isAbsolute userPath) eqn:Hu.
  - exists (normalizeSegments false userPath).
    split; [apply normalizeSegments_clean|]. done.
  - rewrite Hroot, segments_ofSegments by done.
    rewrite normalize_after_ofSegments by done.
    eexists. split; [|done].
    apply normalize_fold_clean; [done|apply split_parts_free].
Qed.

Lemma resolveSandboxPath_cases userPath :
  let root := SANDBOX_DIR cwd moduleDir in
  let target := resolve cwd [root; userPath] in
  (resolveSandboxPath cwd moduleDir userPath = inr target
   ∧ (target = root ∨ (root ++ sep) `prefix_of` target))
  ∨ (resolveSandboxPath cwd moduleDir userPath
       = inl (PathEscapesSandbox userPath)
     ∧ target ≠ root ∧ ¬ (root ++ sep) `prefix_of` target).
Proof.
  intros root target. unfold resolveSandboxPath, startsWith.
  fold root. fold target.
  destruct (decide (target = root)) as [He|He].
  - left. rewrite (bool_decide_eq_true_2 _ He). simpl. by split; [|left].
  - rewrite (bool_decide_eq_false_2 _ He). simpl.
    destruct (decide ((root ++ sep) `prefix_of` target)) as [Hp|Hp].
    + left. rewrite (bool_decide_eq_true_2 _ Hp). simpl. by split; [|right].
    + right. by rewrite (bool_decide_eq_false_2 _ Hp).
Qed.

(** Success is confinement segment by segment. *)
Lemma resolveSandboxPath_iff userPath :
  let root := SANDBOX_DIR cwd moduleDir in
  let target := resolve cwd [root; userPath] in
  resolveSandboxPath cwd moduleDir userPath = inr target
  ↔ segments root `prefix_of` segments target.
Proof.
  intros root target.
  destruct SANDBOX_DIR_segments as (parent & Hparent & _ & Hroot).
  destruct (target_segments userPath) as (t & Ht & Htarget & _).
  assert (Hr : Forall clean (parent ++ [sandboxName])).
  { apply Forall_app. split; [done|]. constructor; [|done].
    apply sandboxName_clean. }
  assert (Hne : parent ++ [sandboxName] ≠ []) by (by destruct parent).
  pose proof (under_iff _ _ Hr Ht Hne) as Hiff.
  rewrite <- Hroot, <- Htarget in Hiff.
  assert (Hs1 : segments root = parent ++ [sandboxName])
    by (unfold root; by rewrite Hroot, segments_ofSegments).
  assert (Hs2 : segments target = t)
    by (unfold target, root; by rewrite Htarget, segments_ofSegments).
  rewrite Hs1, Hs2, <- Hiff.
  destruct (resolveSandboxPath_cases userPath) as [[-> H]|(-> & H1 & H2)].
  - done.
  - split; [done|]. by intros [?|?].
Qed.

Lemma sibling_segments s :
  s ≠ [] → slash ∉ s →
  ∃ parent,
    Forall clean parent
    ∧ SANDBOX_DIR cwd moduleDir = ofSegments (parent ++ [sandboxName])
    ∧ resolve cwd [SANDBOX_DIR cwd moduleDir; lit "../sandbox-lite" ++ s]
      = ofSegments (parent ++ [sandboxName ++ s]).
Proof.
  intros Hs Hfree.
  destruct SANDBOX_DIR_segments as (parent & Hparent & _ & Hroot).
  exists parent. split; [done|]. split; [done|].
  assert (Hr : Forall clean (parent ++ [sandboxName])).
  { apply Forall_app. split; [done|]. constructor; [|done].
    apply sandboxName_clean. }
  assert (Hfree' : slash ∉ sandboxName ++ s).
  { intros [H|H]%elem_of_app; [|done]. by apply sandboxName_clean in H. }
  assert (Hclean : clean (sandboxName ++ s))
    by (repeat split; [by destruct s|done|done|done]).
  destruct (target_segments (lit "../sandbox-lite" ++ s))
    as (t & _ & -> & ->).
  f_equal.
  change (isAbsolute (lit "../sandbox-lite" ++ s)) with false. cbv iota.
  rewrite Hroot, segments_ofSegments by done.
  change (lit "../sandbox-lite" ++ s)
    with (dotdot ++ slash :: (sandboxName ++ s)).
  rewrite split_app. change (split slash dotdot) with [dotdot].
  rewrite split_free by done. simpl fold_left.
  assert (Hup : normalizeStep false (parent ++ [sandboxName]) dotdot = parent).
  { unfold normalizeStep. change (bool_decide (dotdot = [])) with false.
    change (bool_decide (dotdot = dot)) with false.
    rewrite bool_decide_eq_true_2 by done. rewrite last_snoc. simpl.
    apply removelast_last. }
  rewrite Hup. by apply normalizeStep_clean_seg.
Qed.

(** A sibling directory whose name merely begins with the name of the
    sandbox is outside, although its path begins with the root's text. *)
Lemma sibling_rejected s :
  s ≠ [] → slash ∉ s →
  SANDBOX_DIR cwd moduleDir
    `prefix_of` resolve cwd [SANDBOX_DIR cwd moduleDir;
                             lit "../sandbox-lite" ++ s]
  ∧ resolveSandboxPath cwd moduleDir (lit "../sandbox-lite" ++ s)
    = inl (PathEscapesSandbox (lit "../sandbox-lite" ++ s)).
Proof.
  intros Hs Hfree.
  destruct (sibling_segments s Hs Hfree) as (parent & Hparent & Hroot & Ht).
  assert (Hr : Forall clean (parent ++ [sandboxName])).
  { apply Forall_app. split; [done|]. constructor; [|done].
    apply sandboxName_clean. }
  assert (Hclean : clean (sandboxName ++ s)).
  { repeat split; [by destruct s| |done|done].
    intros [H|H]%elem_of_app; [|done]. by apply sandboxName_clean in H. }
  split.
  - rewrite Ht, Hroot. exists s. unfold ofSegments.
    destruct parent as [|p parent]; [done|].
    rewrite !join_snoc by done.
    by rewrite <- app_comm_cons, <- app_assoc.
  - destruct (resolveSandboxPath_cases (lit "../sandbox-lite" ++ s))
      as [[Hok _]|[Herr _]]; [|done].
    exfalso. apply resolveSandboxPath_iff in Hok.
    assert (Ht' : Forall clean (parent ++ [sandboxName ++ s]))
      by (apply Forall_app; split; [done|by constructor]).
    rewrite Ht, Hroot, !segments_ofSegments in Hok by done.
    apply prefix_app_inv in Hok as [k Hk].
    injection Hk as Hk _. apply Hs.
    apply (app_inv_head sandboxName). by rewrite app_nil_r.
Qed.

(** C1. For every user path the resolver either throws the path-escape
    error or returns the resolved target, an absolute path that is the
    sandbox root or begins with the root and a separator.  It returns
    exactly when the segments of the root are a prefix of the segments of
    the target, where the target's segments are those of the user path
    walked from "/" (absolute input) or from the root (any other input),
    ".." stepping back.  A sibling such as [../sandbox-lite2] has the
    root's text as a prefix of its path and is rejected. *)
Theorem resolveSandboxPath_confined (userPath : list N) :
  let root := SANDBOX_DIR cwd moduleDir in
  let target := resolve cwd [root; userPath] in
  (resolveSandboxPath cwd moduleDir userPath = inr target
   ∨ resolveSandboxPath cwd moduleDir userPath
     = inl (PathEscapesSandbox userPath))
  ∧ kindOf (PathEscapesSandbox userPath) = PathEscapeError
  ∧ (resolveSandboxPath cwd moduleDir userPath = inr target →
     isAbsolute target = true
     ∧ (target = root ∨ (root ++ sep) `prefix_of` target))
  ∧ (resolveSandboxPath cwd moduleDir userPath = inr target
     ↔ segments root `prefix_of` segments target)
  ∧ segments target
    = fold_left (normalizeStep false) (split slash userPath)
        (if isAbsolute userPath then [] else segments root)
  ∧ (∀ s, s ≠ [] → slash ∉ s →
       root `prefix_of` resolve cwd [root; lit "../sandbox-lite" ++ s]
       ∧ resolveSandboxPath cwd moduleDir (lit "../sandbox-lite" ++ s)
         = inl (PathEscapesSandbox (lit "../sandbox-lite" ++ s))).
Proof.
  intros root target.
  destruct (target_segments userPath) as (t & Ht & Htarget & Hwalk).
  split; [|split; [done|split; [|split; [|split]]]].
  - destruct (resolveSandboxPath_cases userPath) as [[? _]|[? _]]; auto.
  - intros Hok.
    destruct (resolveSandboxPath_cases userPath) as [[_ ?]|[Herr _]].
    + split; [|done]. unfold target, root. by rewrite Htarget.
    + unfold target, root in Hok. congruence.
  - apply resolveSandboxPath_iff.
  - unfold target, root. by rewrite Htarget, segments_ofSegments.
  - apply sibling_rejected.
Qed.

End SandboxFacts.

Lemma exampleDir_absolute : Path.isAbsolute exampleDir = true.
Proof. reflexivity. Defined.

Lemma resolveSandboxPath_confined_witness :
  Path.isAbsolute exampleDir = true
  ∧ (resolveSandboxPath [] exampleDir (JS.lit "notes/../a.txt")
     = inr (JS.lit "/srv/hello-agent/sandbox-lite/a.txt")
     ↔ Path.segments (SANDBOX_DIR [] exampleDir)
         `prefix_of` Path.segments (JS.lit "/srv/hello-agent/sandbox-lite/a.txt")).
Proof.
  split; [reflexivity|].
  exact (proj1 (proj2 (proj2 (proj2
    (resolveSandboxPath_confined [] exampleDir exampleDir_absolute
       (JS.lit "notes/../a.txt")))))).
Defined.
(* ===================================================================== *)
(** ** [JSON.parse] never runs out of fuel *)
(* ===================================================================== *)

Section JSONFacts.
Import JSON.

Local Open Scope nat_scope.

Lemma skipWs_length s : length (skipWs s) <= length s.
Proof.
  induction s as [|c s IH]; simpl; [done|].
  destruct (isWs c); simpl; lia.
Qed.

Lemma skipWs_cons s c r : skipWs s = c :: r → length r < length s.
Proof.
  intros H. pose proof (skipWs_length s) as Hl. rewrite H in Hl.
  simpl in Hl. lia.
Qed.

Lemma stringBody_bounded n s str rest :
  length s <= n → stringBody s = Some (str, rest) → length rest < length s.
Proof.
  revert s str rest. induction n as [|n IH]; intros s str rest Hn.
  - destruct s; [done|simpl in Hn; lia].
  - destruct s as [|c r]; [done|]. simpl in Hn. cbn [stringBody].
    destruct (c =? 34)%N; [intros [= _ <-]; simpl; lia|].
    destruct (c =? 92)%N.
    + destruct r as [|e r']; [done|]. simpl in Hn.
      destruct (e =? 117)%N.
      * destruct r' as [|h1 [|h2 [|h3 [|h4 r'']]]]; try done.
        destruct (hexVal h1), (hexVal h2), (hexVal h3), (hexVal h4);
          try done.
        destruct (stringBody r'') as [[str' rest']|] eqn:E; [|done].
        intros [= _ <-]. apply IH in E; simpl in *; lia.
      * destruct (escapeOf e); [|done].
        destruct (stringBody r') as [[str' rest']|] eqn:E; [|done].
        intros [= _ <-]. apply IH in E; simpl in *; lia.
    + destruct (c <? 32)%N; [done|].
      destruct (stringBody r) as [[str' rest']|] eqn:E; [|done].
      intros [= _ <-]. apply IH in E; simpl in *; lia.
Qed.

Lemma stringBody_length s str rest :
  stringBody s = Some (str, rest) → length rest < length s.
Proof. by apply (stringBody_bounded (length s)). Qed.

Lemma digits_length s ds rest :
  digits s = (ds, rest) → length s = length ds + length rest.
Proof.
  revert ds rest. induction s as [|c s IH]; intros ds rest; simpl.
  - by intros [= <- <-].
  - destruct (isDigit c).
    + destruct (digits s) as [ds' rest'] eqn:E. intros [= <- <-].
      simpl. by rewrite (IH ds' rest').
    + by intros [= <- <-].
Qed.

Lemma fraction_length s fp rest :
  fraction s = Some (fp, rest) → length rest <= length s.
Proof.
  unfold fraction. destruct s as [|c r]; [by intros [= _ <-]|].
  destruct (c =? 46)%N; [|by intros [= _ <-]].
  destruct (digits r) as [ds rest'] eqn:E. apply digits_length in E.
  destruct ds; [done|]. intros [= _ <-]. simpl in *. lia.
Qed.

Lemma exponent_length s e rest :
  exponent s = Some (e, rest) → length rest <= length s.
Proof.
  unfold exponent. destruct s as [|c r]; [by intros [= _ <-]|].
  destruct ((c =? 101)%N || (c =? 69)%N); [|by intros [= _ <-]].
  assert (∃ neg r1,
            match r with
            | g :: r' =>
                if (g =? 45)%N then (true, r')
                else if (g =? 43)%N then (false, r') else (false, r)
            | [] => (false, r)
            end = (neg, r1) ∧ length r1 <= length r)
    as (neg & r1 & -> & Es).
  { destruct r as [|g r']; [by eexists _, _|].
    destruct (g =? 45)%N; [eexists _, _; split; [done|simpl; lia]|].
    destruct (g =? 43)%N; eexists _, _; (split; [done|simpl; lia]). }
  destruct (digits r1) as [ds rest'] eqn:E. apply digits_length in E.
  destruct ds; [done|]. intros [= _ <-]. simpl in *. lia.
Qed.

Lemma number_length s v rest :
  number s = Some (v, rest) → length rest < length s.
Proof.
  unfold number.
  assert (∃ neg s1,
            match s with
            | c :: r => if (c =? 45)%N then (true, r) else (false, s)
            | [] => (false, s)
            end = (neg, s1) ∧ length s1 <= length s)
    as (neg & s1 & -> & Es).
  { destruct s as [|c r]; [by eexists _, _|].
    destruct (c =? 45)%N; eexists _, _; (split; [done|simpl; lia]). }
  destruct (digits s1) as [ip s2] eqn:Ed. apply digits_length in Ed.
  destruct ip as [|d more]; [done|].
  destruct ((d =? 48)%N && _); [done|].
  destruct (fraction s2) as [[fp s3]|] eqn:Ef; [|done].
  apply fraction_length in Ef.
  destruct (exponent s3) as [[e s4]|] eqn:Ee; [|done].
  apply exponent_length in Ee.
  intros [= _ <-]. simpl in *. lia.
Qed.

Lemma keyword_length k v s w rest :
  k ≠ [] → keyword k v s = POk w rest → length rest < length s.
Proof.
  intros Hk. unfold keyword. case_bool_decide as Hp; [|done].
  intros [= _ <-]. destruct Hp as [t ->]. rewrite drop_app_length.
  rewrite length_app. destruct k; [done|simpl; lia].
Qed.

(** The three parsers at once: with two units of fuel for every code unit
    left (and one or two to start), none runs out, and each consumes. *)
Lemma parse_fuel fuel :
  (∀ s, 2 * length s + 1 <= fuel →
        parseValue fuel s ≠ PFuel
        ∧ ∀ v rest, parseValue fuel s = POk v rest → length rest < length s)
  ∧ (∀ acc s, 2 * length s + 2 <= fuel →
        parseElements fuel acc s ≠ PFuel
        ∧ ∀ v rest, parseElements fuel acc s = POk v rest →
                    length rest < length s)
  ∧ (∀ acc s, 2 * length s + 2 <= fuel →
        parseMembers fuel acc s ≠ PFuel
        ∧ ∀ v rest, parseMembers fuel acc s = POk v rest →
                    length rest < length s).
Proof.
  induction fuel as [|fuel (IHv & IHe & IHm)].
  { repeat split; intros; lia. }
  split; [|split].
  - intros s Hf. cbn [parseValue].
    destruct (skipWs s) as [|c r] eqn:Es; [done|].
    apply skipWs_cons in Es.
    destruct (c =? 123)%N.
    { destruct (skipWs r) as [|c' r'] eqn:Er; [done|].
      pose proof (skipWs_length r) as Hr. rewrite Er in Hr.
      destruct (c' =? 125)%N.
      - split; [done|]. intros v rest [= _ <-]. simpl in Hr. lia.
      - destruct (IHm [] (c' :: r')) as [H1 H2]; [lia|].
        split; [done|]. intros v rest Hok. apply H2 in Hok. lia. }
    destruct (c =? 91)%N.
    { destruct (skipWs r) as [|c' r'] eqn:Er; [done|].
      pose proof (skipWs_length r) as Hr. rewrite Er in Hr.
      destruct (c' =? 93)%N.
      - split; [done|]. intros v rest [= _ <-]. simpl in Hr. lia.
      - destruct (IHe [] (c' :: r')) as [H1 H2]; [lia|].
        split; [done|]. intros v rest Hok. apply H2 in Hok. lia. }
    destruct (c =? 34)%N.
    { destruct (stringBody r) as [[str rest']|] eqn:E; [|done].
      apply stringBody_length in E. split; [done|].
      intros v rest [= _ <-]. lia. }
    assert (Hkw : ∀ k w, k ≠ [] →
              keyword k w (c :: r) ≠ PFuel
              ∧ ∀ v rest, keyword k w (c :: r) = POk v rest →
                          length rest < length s).
    { intros k w Hk. split.
      - unfold keyword. by case_bool_decide.
      - intros v rest Hok. apply keyword_length in Hok; [|done].
        simpl in Hok. lia. }
    destruct (c =? 116)%N; [by apply Hkw|].
    destruct (c =? 102)%N; [by apply Hkw|].
    destruct (c =? 110)%N; [by apply Hkw|].
    destruct (number (c :: r)) as [[v' rest']|] eqn:E; [|done].
    apply number_length in E. split; [done|].
    intros v rest [= _ <-]. simpl in E. lia.
  - intros acc s Hf. cbn [parseElements].
    destruct (IHv s) as [H1 H2]; [lia|].
    destruct (parseValue fuel s) as [v rest| |] eqn:E; [|done|done].
    specialize (H2 v rest eq_refl).
    destruct (skipWs rest) as [|c r] eqn:Er; [done|].
    apply skipWs_cons in Er.
    destruct (c =? 44)%N.
    { destruct (IHe (acc ++ [v]) r) as [H3 H4]; [lia|].
      split; [done|]. intros v' rest' Hok. apply H4 in Hok. lia. }
    destruct (c =? 93)%N; [|done].
    split; [done|]. intros v' rest' [= _ <-]. lia.
  - intros acc s Hf. cbn [parseMembers].
    destruct (skipWs s) as [|c r] eqn:Es; [done|].
    apply skipWs_cons in Es.
    destruct (c =? 34)%N; [|done].
    destruct (stringBody r) as [[key r1]|] eqn:Ek; [|done].
    apply stringBody_length in Ek.
    destruct (skipWs r1) as [|c1 r2] eqn:E1; [done|].
    apply skipWs_cons in E1.
    destruct (c1 =? 58)%N; [|done].
    destruct (IHv r2) as [H1 H2]; [lia|].
    destruct (parseValue fuel r2) as [v rest| |] eqn:E; [|done|done].
    specialize (H2 v rest eq_refl).
    destruct (skipWs rest) as [|c2 r3] eqn:Er; [done|].
    apply skipWs_cons in Er.
    destruct (c2 =? 44)%N.
    { destruct (IHm (set key v acc) r3) as [H3 H4]; [lia|].
      split; [done|]. intros v' rest' Hok. apply H4 in Hok. lia. }
    destruct (c2 =? 125)%N; [|done].
    split; [done|]. intros v' rest' [= _ <-]. lia.
Qed.

(** [JSON.parse] is decided by the grammar, never by the fuel: it gives a
    value, or the text is not JSON. *)
Lemma parseText_fuel text : parseText (2 * length text + 2) text ≠ PFuel.
Proof.
  unfold parseText.
  destruct (proj1 (parse_fuel (2 * length text + 2)) text) as [H _]; [lia|].
  destruct (parseValue _ text) as [v rest| |]; [|done|done].
  by destruct (skipWs rest).
Qed.

Lemma parse_None text :
  parse text = None ↔ parseText (2 * length text + 2) text = PErr.
Proof.
  unfold parse. pose proof (parseText_fuel text) as H.
  by destruct (parseText _ text).
Qed.

End JSONFacts.
(* ===================================================================== *)
(** ** The parser of model output *)
(* ===================================================================== *)

Section TrimFacts.
Import JS.

Lemma trimStart_keep c s :
  isWhiteSpace c = false → trimStart (c :: s) = c :: s.
Proof. intros H. simpl. by rewrite H. Qed.

Lemma trimStart_skip c s :
  isWhiteSpace c = true → trimStart (c :: s) = trimStart s.
Proof. intros H. simpl. by rewrite H. Qed.

Lemma trimEnd_keep s c :
  isWhiteSpace c = false → trimEnd (s ++ [c]) = s ++ [c].
Proof.
  intros H. unfold trimEnd. rewrite rev_unit, trimStart_keep by done.
  by rewrite <- rev_unit, rev_involutive.
Qed.

Lemma trimEnd_skip s c :
  isWhiteSpace c = true → trimEnd (s ++ [c]) = trimEnd s.
Proof.
  intros H. unfold trimEnd. by rewrite rev_unit, trimStart_skip.
Qed.

Lemma trimStart_snoc s w :
  isWhiteSpace w = true →
  trimStart (s ++ [w]) = match trimStart s with [] => [] | t => t ++ [w] end.
Proof.
  intros H. induction s as [|c s IH]; simpl.
  - by rewrite H.
  - destruct (isWhiteSpace c); [done|reflexivity].
Qed.

Lemma trim_snoc s w : isWhiteSpace w = true → trim (s ++ [w]) = trim s.
Proof.
  intros H. unfold trim. rewrite trimStart_snoc by done.
  destruct (trimStart s) as [|c t] eqn:E; [done|].
  by rewrite trimEnd_skip.
Qed.

Lemma trim_cons w s : isWhiteSpace w = true → trim (w :: s) = trim s.
Proof. intros H. unfold trim. by rewrite trimStart_skip. Qed.

(** A text with no white space at either end is its own trimming. *)
Lemma trim_id c s d :
  isWhiteSpace c = false → isWhiteSpace d = false →
  trim (c :: s ++ [d]) = c :: s ++ [d].
Proof.
  intros Hc Hd. unfold trim. rewrite trimStart_keep by done.
  by apply (trimEnd_keep (c :: s)).
Qed.

Lemma dropEnd_app s k : dropEnd (length k) (s ++ k) = s.
Proof.
  unfold dropEnd. rewrite length_app.
  replace (length s + length k - length k)%nat with (length s) by lia.
  apply take_app_length.
Qed.

End TrimFacts.

Section ParserFacts.

(** No JSON text begins with a backquote. *)
Lemma parse_backquote r : JSON.parse (96 :: r) = None.
Proof.
  unfold JSON.parse. simpl length.
  replace (2 * S (length r) + 2)%nat with (S (2 * length r + 3)) by lia.
  reflexivity.
Qed.

Lemma normalizeModelOutput_plain s :
  JS.startsWith (JS.trim s) fence = false →
  normalizeModelOutput s = JS.trim s.
Proof. intros H. unfold normalizeModelOutput. by rewrite H. Qed.

Lemma fenced_tail tag body :
  tag = [] ∨ map lower tag = JS.lit "json" →
  replaceFence (replaceJsonFence (fenced tag body))
  = [10] ++ body ++ [10] ++ fence.
Proof.
  intros [->|Htag].
  - unfold replaceJsonFence, fenced, fence.
    rewrite bool_decide_eq_false_2; [reflexivity|].
    simpl. intros H. discriminate H.
  - destruct tag as [|a [|b [|c [|d [|e tag]]]]]; try discriminate Htag.
    unfold replaceJsonFence, fenced, fence.
    rewrite bool_decide_eq_true_2; [reflexivity|].
    simpl take. simpl map in Htag |- *.
    injection Htag as -> -> -> ->. reflexivity.
Qed.

Lemma normalizeModelOutput_fenced tag body :
  tag = [] ∨ map lower tag = JS.lit "json" →
  normalizeModelOutput (fenced tag body) = JS.trim body.
Proof.
  intros Htag. unfold normalizeModelOutput.
  assert (Htrim : JS.trim (fenced tag body) = fenced tag body).
  { unfold fenced, fence.
    change (JS.lit "```" ++ tag ++ [10] ++ body ++ [10] ++ JS.lit "```")
      with (96 :: ([96; 96] ++ tag ++ [10] ++ body ++ [10] ++ [96; 96] ++ [96])).
    rewrite !app_assoc. rewrite <- !app_assoc. rewrite !app_assoc.
    by apply trim_id. }
  rewrite Htrim.
  assert (Hstart : JS.startsWith (fenced tag body) fence = true).
  { apply bool_decide_eq_true_2. by apply prefix_app_r. }
  rewrite Hstart, fenced_tail by done.
  assert (Hend : JS.endsWith ([10] ++ body ++ [10] ++ fence) fence = true).
  { apply bool_decide_eq_true_2. rewrite !app_assoc. by apply suffix_app_r. }
  rewrite Hend. rewrite !app_assoc.
  change 3%nat with (length fence). rewrite dropEnd_app.
  rewrite trim_snoc by done. simpl app. by rewrite trim_cons.
Qed.

Lemma parseModelOutput_fenced tag body :
  tag = [] ∨ map lower tag = JS.lit "json" →
  JSON.parse (JS.trim body) ≠ None →
  parseModelOutput (fenced tag body) = parseModelOutput body.
Proof.
  intros Htag Hjson. unfold parseModelOutput.
  rewrite normalizeModelOutput_fenced by done.
  rewrite normalizeModelOutput_plain; [done|].
  apply bool_decide_eq_false_2. intros [k Hk]. apply Hjson.
  rewrite Hk. apply parse_backquote.
Qed.

Lemma isString_true v s : JSON.isString v s = true ↔ v = Some (JSON.Str s).
Proof.
  destruct v as [[]|]; simpl; try (split; [done|congruence]).
  rewrite bool_decide_eq_true. split; [by intros ->|congruence].
Qed.

Lemma tool_not_final : JSON.isString (Some (JSON.Str tool_)) final_ = false.
Proof. reflexivity. Qed.

(** C3. [parseModelOutput] is total and ends in one of two
    ways: a malformed-output error or the decoded payload.  With [text]
    the trimmed content, stripped of a fence if it begins with one: when
    [text] is not JSON, or is JSON but not an object, or is an object whose
    [type] is neither "tool" nor "final", it fails; when [text] is an
    object of type "tool" whose [name] is a string with a character that is
    not white space, it returns that object, with [args] set to the empty
    object when absent or null and untouched otherwise; when it is an
    object of type "final" whose [content] is a string, it returns that
    object.  A JSON text wrapped in a fenced block whose opening fence has
    no tag, or the tag "json" in any letter case, parses as the text
    itself does. *)
Theorem parseModelOutput_total (raw : list N) :
  let text := normalizeModelOutput raw in
  (∀ e, parseModelOutput raw = inl e → kindOf e = MalformedOutputError)
  ∧ (JSON.parse text = None → parseModelOutput raw = inl ExpectedJSON)
  ∧ (∀ v, JSON.parse text = Some v → (∀ props, v ≠ JSON.Object props) →
       parseModelOutput raw = inl ExpectedJSONObject)
  ∧ (∀ props, JSON.parse text = Some (JSON.Object props) →
       JSON.lookup Key.type props ≠ Some (JSON.Str tool_) →
       JSON.lookup Key.type props ≠ Some (JSON.Str final_) →
       parseModelOutput raw = inl UnknownType)
  ∧ (∀ props n, JSON.parse text = Some (JSON.Object props) →
       JSON.lookup Key.type props = Some (JSON.Str tool_) →
       JSON.lookup Key.name props = Some (JSON.Str n) →
       JS.trim n ≠ [] →
       (JSON.lookup Key.args props = None
        ∨ JSON.lookup Key.args props = Some JSON.Null →
        parseModelOutput raw
        = inr (JSON.set Key.args (JSON.Object []) props))
       ∧ (∀ a, JSON.lookup Key.args props = Some a → a ≠ JSON.Null →
          parseModelOutput raw = inr props))
  ∧ (∀ props c, JSON.parse text = Some (JSON.Object props) →
       JSON.lookup Key.type props = Some (JSON.Str final_) →
       JSON.lookup Key.content props = Some (JSON.Str c) →
       parseModelOutput raw = inr props)
  ∧ (∀ tag body, tag = [] ∨ map lower tag = JS.lit "json" →
       JSON.parse (JS.trim body) ≠ None →
       parseModelOutput (fenced tag body) = parseModelOutput body).
Proof.
  intros text. unfold parseModelOutput. fold text.
  split; [|split; [|split; [|split; [|split; [|split]]]]].
  - intros e. destruct (JSON.parse text) as [[]|]; try by intros [= <-].
    destruct (negb _ && negb _); [by intros [= <-]|].
    destruct (JSON.isString _ tool_).
    + destruct (JSON.lookup Key.name props) as [[]|]; try by intros [= <-].
      destruct (Nat.eqb _ _); [by intros [= <-]|].
      by destruct (JSON.lookup Key.args props) as [[]|].
    + by destruct (JSON.lookup Key.content props) as [[]|]; intros [= <-].
  - by intros ->.
  - intros v -> Hv. destruct v; try done. by destruct (Hv props).
  - intros props -> Ht Hf.
    destruct (JSON.isString _ tool_) eqn:E1; [by apply isString_true in E1|].
    destruct (JSON.isString _ final_) eqn:E2; [by apply isString_true in E2|].
    done.
  - intros props n -> Ht Hn Hne. rewrite Ht, Hn. simpl.
    destruct (JS.trim n) as [|c t] eqn:E; [done|]. simpl.
    split.
    + by intros [->| ->].
    + intros a -> Ha. by destruct a.
  - intros props c -> Ht Hc. by rewrite Ht, Hc.
  - apply parseModelOutput_fenced.
Qed.

End ParserFacts.

Lemma parseModelOutput_total_witness :
  JSON.parse (normalizeModelOutput (JS.jq "{'type':'final','content':'ok'}"))
  = Some (JSON.Object [(Key.type, JSON.Str final_);
                       (Key.content, JSON.Str (JS.lit "ok"))])
  ∧ parseModelOutput (JS.jq "{'type':'final','content':'ok'}")
    = inr [(Key.type, JSON.Str final_); (Key.content, JSON.Str (JS.lit "ok"))].
Proof.
  split; [reflexivity|].
  apply (proj1 (proj2 (proj2 (proj2 (proj2 (proj2
           (parseModelOutput_total (JS.jq "{'type':'final','content':'ok'}")))))))
         _ (JS.lit "ok")); reflexivity.
Defined.

(** A well-formed final answer in a fenced block tagged "js" is refused,
    although the same text on its own is accepted. *)
Lemma parseModelOutput_other_tag :
  parseModelOutput (JS.jq "{'type':'final','content':'ok'}")
  = inr [(Key.type, JSON.Str final_); (Key.content, JSON.Str (JS.lit "ok"))]
  ∧ parseModelOutput
      (fenced (JS.lit "js") (JS.jq "{'type':'final','content':'ok'}"))
    = inl ExpectedJSON.
Proof. split; reflexivity. Qed.
(* ===================================================================== *)
(** ** UTF-8: decoding what was encoded *)
(* ===================================================================== *)

Section UTF8Facts.
Import UTF8.

Ltac div_lia := zify; Z.to_euclidean_division_equations; lia.


Lemma inRange_spec b lo hi : inRange b lo hi = true ↔ lo <= b ∧ b <= hi.
Proof.
  unfold inRange. rewrite andb_true_iff, !N.leb_le. done.
Qed.

Lemma inRange_false b lo hi : b < lo ∨ hi < b → inRange b lo hi = false.
Proof.
  intros H. unfold inRange. apply andb_false_iff.
  rewrite !N.leb_gt. lia.
Qed.

Lemma decode_one cp r :
  cp < 0x80 → decode (encodePoint cp ++ r) = cp :: decode r.
Proof.
  intros H. unfold encodePoint. rewrite (proj2 (N.ltb_lt _ _) H).
  simpl app. cbn [decode]. by rewrite (proj2 (N.ltb_lt _ _) H).
Qed.

Lemma decode_two cp r :
  0x80 <= cp → cp < 0x800 → decode (encodePoint cp ++ r) = cp :: decode r.
Proof.
  intros H1 H2. unfold encodePoint.
  rewrite (proj2 (N.ltb_ge _ _) H1), (proj2 (N.ltb_lt _ _) H2).
  simpl app. cbn [decode].
  rewrite (proj2 (N.ltb_ge (0xC0 + cp / 64) 0x80)) by div_lia.
  rewrite (proj2 (inRange_spec _ 0xC2 0xDF)) by div_lia.
  unfold isCont. rewrite (proj2 (inRange_spec _ 0x80 0xBF)) by div_lia.
  f_equal. div_lia.
Qed.

Lemma decode_three cp r :
  0x800 <= cp → cp < 0x10000 → isHigh cp = false → isLow cp = false →
  decode (encodePoint cp ++ r) = cp :: decode r.
Proof.
  intros H1 H2 Hh Hl. unfold encodePoint.
  rewrite (proj2 (N.ltb_ge cp 0x80)) by lia.
  rewrite (proj2 (N.ltb_ge _ _) H1), (proj2 (N.ltb_lt _ _) H2).
  assert (Hs : cp < 0xD800 ∨ 0xDFFF < cp).
  { unfold isHigh, isLow, inRange in Hh, Hl.
    apply andb_false_iff in Hh, Hl. rewrite !N.leb_gt in Hh, Hl. lia. }
  simpl app. cbn [decode].
  rewrite (proj2 (N.ltb_ge (0xE0 + cp / 4096) 0x80)) by div_lia.
  rewrite (inRange_false _ 0xC2 0xDF) by div_lia.
  rewrite (proj2 (inRange_spec _ 0xE0 0xEF)) by div_lia.
  assert (Hb1 : inRange (0x80 + (cp / 64) mod 64)
                  (if 0xE0 + cp / 4096 =? 0xE0 then 0xA0 else 0x80)
                  (if 0xE0 + cp / 4096 =? 0xED then 0x9F else 0xBF) = true).
  { apply inRange_spec.
    destruct (N.eqb_spec (0xE0 + cp / 4096) 0xE0);
      destruct (N.eqb_spec (0xE0 + cp / 4096) 0xED); div_lia. }
  rewrite Hb1. unfold isCont.
  rewrite (proj2 (inRange_spec _ 0x80 0xBF)) by div_lia.
  f_equal. div_lia.
Qed.

Lemma decode_four cp r :
  0x10000 <= cp → cp < 0x110000 →
  decode (encodePoint cp ++ r) = unitsOf cp ++ decode r.
Proof.
  intros H1 H2. unfold encodePoint.
  rewrite (proj2 (N.ltb_ge cp 0x80)) by lia.
  rewrite (proj2 (N.ltb_ge cp 0x800)) by lia.
  rewrite (proj2 (N.ltb_ge _ _) H1).
  simpl app. cbn [decode].
  rewrite (proj2 (N.ltb_ge (0xF0 + cp / 262144) 0x80)) by div_lia.
  rewrite (inRange_false _ 0xC2 0xDF) by div_lia.
  rewrite (inRange_false _ 0xE0 0xEF) by div_lia.
  rewrite (proj2 (inRange_spec _ 0xF0 0xF4)) by div_lia.
  assert (Hb1 : inRange (0x80 + (cp / 4096) mod 64)
                  (if 0xF0 + cp / 262144 =? 0xF0 then 0x90 else 0x80)
                  (if 0xF0 + cp / 262144 =? 0xF4 then 0x8F else 0xBF) = true).
  { apply inRange_spec.
    destruct (N.eqb_spec (0xF0 + cp / 262144) 0xF0);
      destruct (N.eqb_spec (0xF0 + cp / 262144) 0xF4); div_lia. }
  rewrite Hb1. unfold isCont.
  rewrite !(proj2 (inRange_spec _ 0x80 0xBF)) by div_lia.
  do 2 f_equal. div_lia.
Qed.

Lemma unitsOf_pair u l :
  isHigh u = true → isLow l = true →
  unitsOf (0x10000 + (u - 0xD800) * 1024 + (l - 0xDC00)) = [u; l].
Proof.
  intros [H1 H2]%inRange_spec [H3 H4]%inRange_spec. unfold unitsOf.
  rewrite (proj2 (N.ltb_ge _ 0x10000)) by lia.
  f_equal; [|f_equal]; div_lia.
Qed.

Lemma decode_encode_bounded n s :
  (length s <= n)%nat → wellFormed s = true → decode (encode s) = s.
Proof.
  revert s. induction n as [|n IH]; intros s Hlen Hwf.
  - destruct s; [done|simpl in Hlen; lia].
  - destruct s as [|u r]; [done|]. simpl in Hlen.
    cbn [encode wellFormed] in *. destruct (isHigh u) eqn:Hh.
    + destruct r as [|l r']; [done|].
      apply andb_true_iff in Hwf as [Hl Hwf]. rewrite Hl.
      pose proof (proj1 (inRange_spec _ _ _) Hh) as [? ?].
      pose proof (proj1 (inRange_spec _ _ _) Hl) as [? ?].
      rewrite decode_four by lia. rewrite unitsOf_pair by done.
      simpl in Hlen. rewrite IH by (done || lia). done.
    + apply andb_true_iff in Hwf as [Hwf Hr].
      apply andb_true_iff in Hwf as [Hl Hu].
      apply negb_true_iff in Hl. rewrite Hl. apply N.ltb_lt in Hu.
      assert (Hdec : decode (encodePoint u ++ encode r) = u :: decode (encode r)).
      { destruct (N.lt_ge_cases u 0x80); [by apply decode_one|].
        destruct (N.lt_ge_cases u 0x800); [by apply decode_two|].
        by apply decode_three. }
      rewrite Hdec, IH by (done || lia). done.
Qed.

(** Text that is well-formed UTF-16 survives the file system. *)
Lemma decode_encode s : wellFormed s = true → decode (encode s) = s.
Proof. by apply (decode_encode_bounded (length s)). Qed.

(** A surrogate on its own does not. *)
Lemma lone_surrogate_lost : decode (encode [0xD800]) = [0xFFFD].
Proof. reflexivity. Qed.

End UTF8Facts.
(* ===================================================================== *)
(** ** Facts about the file system *)
(* ===================================================================== *)

Section FSFacts.
Import FS.

Implicit Types m : gmap (list (list N)) node.

Lemma mkdirFrom_preserves visited todo m m' k n :
  mkdirFrom visited todo m = inr m' → m !! k = Some n → m' !! k = Some n.
Proof.
  revert visited m. induction todo as [|x todo IH]; intros visited m; simpl.
  - by intros [= ->].
  - destruct (m !! (visited ++ [x])) as [[]|] eqn:E; [done| |].
    + apply IH.
    + intros H Hk. eapply IH; [exact H|].
      rewrite lookup_insert_ne; [done|]. by intros <-; rewrite E in Hk.
Qed.

(** After [mkdir -p] every directory on the way exists. *)
Lemma mkdirFrom_made visited todo m m' t1 x t2 :
  mkdirFrom visited todo m = inr m' → todo = t1 ++ x :: t2 →
  m' !! (visited ++ t1 ++ [x]) = Some Dir.
Proof.
  revert visited m t1. induction todo as [|y todo IH]; intros visited m t1.
  - by destruct t1.
  - simpl. intros H Ht. destruct t1 as [|z t1].
    + injection Ht as -> ->. simpl.
      destruct (m !! (visited ++ [x])) as [[]|] eqn:E; [done| |].
      * by eapply mkdirFrom_preserves.
      * eapply mkdirFrom_preserves; [exact H|]. apply lookup_insert_eq.
    + injection Ht as -> ->.
      replace (visited ++ (z :: t1) ++ [x])
        with ((visited ++ [z]) ++ t1 ++ [x]) by (by rewrite <- app_assoc).
      destruct (m !! (visited ++ [z])) as [[]|] eqn:E; [done| |];
        by eapply IH.
Qed.

(** Where every directory on the way exists, [mkdir -p] changes nothing. *)
Lemma mkdirFrom_present visited todo m :
  (∀ t1 x t2, todo = t1 ++ x :: t2 →
     m !! (visited ++ t1 ++ [x]) = Some Dir) →
  mkdirFrom visited todo m = inr m.
Proof.
  revert visited. induction todo as [|y todo IH]; intros visited H; [done|].
  pose proof (H [] y todo eq_refl) as Hy. simpl in Hy |- *.
  rewrite Hy. apply IH.
  intros t1 x t2 ->. rewrite <- app_assoc. by apply (H (y :: t1) x t2).
Qed.

Lemma mkdirFrom_idempotent visited todo m m' :
  mkdirFrom visited todo m = inr m' → mkdirFrom visited todo m' = inr m'.
Proof.
  intros H. apply mkdirFrom_present. intros t1 x t2 Ht.
  by eapply mkdirFrom_made.
Qed.

Lemma nodeAt_made todo m m' :
  mkdirFrom [] todo m = inr m' → nodeAt m' todo = Some Dir.
Proof.
  intros H. destruct todo as [|x todo] using rev_ind; [done|].
  pose proof (mkdirFrom_made [] _ m m' todo x [] H) as Hm.
  specialize (Hm eq_refl). simpl in Hm.
  unfold nodeAt. by destruct (todo ++ [x]) eqn:E; [destruct todo|].
Qed.

(** *** The operations, by their outcome *)

Lemma mkdir_ok path w w' :
  mkdir path w = (inr tt, w') →
  hasNul path = false
  ∧ mkdirFrom [] (key path) (nodes w) = inr (nodes w')
  ∧ log w' = log w ++ [Mkdir path].
Proof.
  unfold mkdir. simpl. destruct (hasNul path); [done|].
  destruct (mkdirFrom _ _ _) eqn:E; [done|]. by intros [= <-].
Qed.

Lemma mkdir_log path w r w' :
  mkdir path w = (r, w') → log w' = log w ++ [Mkdir path].
Proof.
  unfold mkdir. simpl. destruct (hasNul path); [by intros [= <- <-]|].
  destruct (mkdirFrom _ _ _); by intros [= <- <-].
Qed.

Lemma mkdir_present path w :
  hasNul path = false →
  (∀ t1 x t2, key path = t1 ++ x :: t2 →
     nodes w !! (t1 ++ [x]) = Some Dir) →
  mkdir path w = (inr tt, logged (Mkdir path) w).
Proof.
  intros Hnul H. unfold mkdir. rewrite Hnul. simpl.
  by rewrite mkdirFrom_present.
Qed.

Lemma mkdir_idempotent path w w' :
  mkdir path w = (inr tt, w') →
  mkdir path w' = (inr tt, logged (Mkdir path) w').
Proof.
  intros (Hnul & Hm & _)%mkdir_ok. apply mkdir_present; [done|].
  intros t1 x t2 Ht. by apply (mkdirFrom_made [] _ _ _ t1 x t2 Hm).
Qed.

Lemma writeFile_ok path data w w' :
  writeFile path data w = (inr tt, w') →
  hasNul path = false
  ∧ nodeAt (nodes w) (key path) ≠ Some Dir
  ∧ nodes w' = <[key path := File (UTF8.encode data)]> (nodes w)
  ∧ log w' = log w ++ [WriteFile path data].
Proof.
  unfold writeFile. simpl. destruct (hasNul path); [done|].
  destruct (nodeAt (nodes w) (key path)) as [[]|] eqn:E;
    destruct (nodeAt (nodes w) (removelast (key path))) as [[]|];
    try done; by intros [= <-].
Qed.

Lemma writeFile_log path data w r w' :
  writeFile path data w = (r, w') → log w' = log w ++ [WriteFile path data].
Proof.
  unfold writeFile. simpl. destruct (hasNul path); [by intros [= <- <-]|].
  destruct (nodeAt (nodes w) (key path)) as [[]|];
    destruct (nodeAt (nodes w) (removelast (key path))) as [[]|];
    by intros [= <- <-].
Qed.

Lemma readFile_file path w bytes :
  hasNul path = false → nodeAt (nodes w) (key path) = Some (File bytes) →
  readFile path w = (inr (UTF8.decode bytes), logged (ReadFile path) w).
Proof.
  intros Hnul H. unfold readFile. rewrite Hnul. simpl. by rewrite H.
Qed.

Lemma readFile_log path w r w' :
  readFile path w = (r, w') →
  log w' = log w ++ [ReadFile path] ∧ nodes w' = nodes w.
Proof.
  unfold readFile. simpl. destruct (hasNul path); [by intros [= <- <-]|].
  destruct (nodeAt (nodes w) (key path)) as [[]|]; by intros [= <- <-].
Qed.

Lemma readdir_dir path w :
  hasNul path = false → nodeAt (nodes w) (key path) = Some Dir →
  readdir path w
  = (inr (map UTF8.decode (entries (nodes w) (key path))),
     logged (Readdir path) w).
Proof. intros Hnul H. unfold readdir. rewrite Hnul. simpl. by rewrite H. Qed.

Lemma readdir_log path w r w' :
  readdir path w = (r, w') →
  log w' = log w ++ [Readdir path] ∧ nodes w' = nodes w.
Proof.
  unfold readdir. simpl. destruct (hasNul path); [by intros [= <- <-]|].
  destruct (nodeAt (nodes w) (key path)) as [[]|]; by intros [= <- <-].
Qed.

Lemma mkdir_error path w e w' :
  mkdir path w = (inl e, w') → kindOf e = FilesystemError.
Proof.
  unfold mkdir. simpl. destruct (hasNul path); [by intros [= <- _]|].
  destruct (mkdirFrom _ _ _); [by intros [= <- _]|done].
Qed.

Lemma readdir_error path w e w' :
  readdir path w = (inl e, w') → kindOf e = FilesystemError.
Proof.
  unfold readdir. simpl. destruct (hasNul path); [by intros [= <- _]|].
  destruct (nodeAt (nodes w) (key path)) as [[]|]; by intros [= <- _].
Qed.

Lemma readFile_error path w e w' :
  readFile path w = (inl e, w') → kindOf e = FilesystemError.
Proof.
  unfold readFile. simpl. destruct (hasNul path); [by intros [= <- _]|].
  destruct (nodeAt (nodes w) (key path)) as [[]|]; by intros [= <- _].
Qed.

Lemma writeFile_error path data w e w' :
  writeFile path data w = (inl e, w') → kindOf e = FilesystemError.
Proof.
  unfold writeFile. simpl. destruct (hasNul path); [by intros [= <- _]|].
  destruct (nodeAt (nodes w) (key path)) as [[]|];
    destruct (nodeAt (nodes w) (removelast (key path))) as [[]|];
    by intros [= <- _].
Qed.

(** The entries of a directory are the names of the nodes directly in it,
    each once. *)
Lemma childOf_Some k p n : childOf k p = Some n ↔ p = k ++ [n].
Proof.
  unfold childOf. split.
  - case_bool_decide as Hk; [|done]. intros Hl. subst k.
    destruct p as [|x p] using rev_ind; [done|].
    rewrite last_snoc in Hl. injection Hl as ->.
    by rewrite removelast_last.
  - intros ->. rewrite removelast_last.
    rewrite bool_decide_eq_true_2 by done. apply last_snoc.
Qed.

Lemma elem_of_entries m k n :
  n ∈ entries m k ↔ is_Some (m !! (k ++ [n])).
Proof.
  unfold entries. rewrite list_elem_of_omap. split.
  - intros ([p x] & Hin & Hc). apply elem_of_map_to_list in Hin.
    apply childOf_Some in Hc. simpl in Hc. subst p. by exists x.
  - intros [x Hx]. exists (k ++ [n], x). split.
    + by apply elem_of_map_to_list.
    + by apply childOf_Some.
Qed.

End FSFacts.
(* ===================================================================== *)
(** ** The tool layer *)
(* ===================================================================== *)

Section ToolFacts.

Variable cwd : list N.
Variable moduleDir : list N.


Lemma elem_of_TOOL_NAMES name :
  name ∈ TOOL_NAMES ↔ name = list_files ∨ name = read_file ∨ name = write_file.
Proof.
  unfold TOOL_NAMES, TOOL_DEFINITIONS. simpl map.
  rewrite !elem_of_cons, elem_of_nil. tauto.
Qed.

Lemma trim_length_zero s : Nat.eqb (length (JS.trim s)) 0 = true ↔ JS.trim s = [].
Proof. rewrite Nat.eqb_eq. by destruct (JS.trim s). Qed.

Lemma assertNonEmptyString_ok value field :
  assertNonEmptyString value field = inr tt
  ↔ ∃ s, value = Some (JSON.Str s) ∧ JS.trim s ≠ [].
Proof.
  unfold assertNonEmptyString. split.
  - destruct value as [[]|]; try done.
    destruct (Nat.eqb _ _) eqn:E; [done|]. intros _. exists s. split; [done|].
    intros Hs. apply trim_length_zero in Hs. congruence.
  - intros (s & -> & Hs). destruct (Nat.eqb _ _) eqn:E; [|done].
    by apply trim_length_zero in E.
Qed.

Lemma assertNonEmptyString_error value field e :
  assertNonEmptyString value field = inl e → e = MustBeNonEmptyString field.
Proof.
  unfold assertNonEmptyString. destruct value as [[]|]; try by intros [= <-].
  destruct (Nat.eqb _ _); by intros [= <-].
Qed.

Lemma validateArgs_error name args e :
  validateArgs name args = inl e → kindOf e = InvalidArgumentsError.
Proof.
  unfold validateArgs. destruct args; try by intros [= <-].
  repeat case_bool_decide.
  - destruct (Nat.ltb _ _); by intros [= <-].
  - by intros ->%assertNonEmptyString_error.
  - destruct (assertNonEmptyString _ Key.filePath) eqn:E.
    + apply assertNonEmptyString_error in E as ->. by intros [= <-].
    + by intros ->%assertNonEmptyString_error.
  - done.
Qed.

Lemma validateArgs_list_files args :
  validateArgs list_files args = inr tt ↔ args = JSON.Object [].
Proof.
  unfold validateArgs. split.
  - destruct args; try done. rewrite bool_decide_eq_true_2 by done.
    by destruct props.
  - by intros ->.
Qed.

Lemma validateArgs_read_file args :
  validateArgs read_file args = inr tt
  ↔ ∃ props p, args = JSON.Object props
      ∧ JSON.lookup Key.filePath props = Some (JSON.Str p)
      ∧ JS.trim p ≠ [].
Proof.
  unfold validateArgs. split.
  - destruct args; try done.
    change (bool_decide (read_file = list_files)) with false.
    rewrite bool_decide_eq_true_2 by done.
    intros (p & Hp & Hne)%assertNonEmptyString_ok. by exists props, p.
  - intros (props & p & -> & Hp & Hne).
    change (bool_decide (read_file = list_files)) with false.
    rewrite bool_decide_eq_true_2 by done.
    apply assertNonEmptyString_ok. by exists p.
Qed.

Lemma validateArgs_write_file args :
  validateArgs write_file args = inr tt
  ↔ ∃ props p c, args = JSON.Object props
      ∧ JSON.lookup Key.filePath props = Some (JSON.Str p)
      ∧ JSON.lookup Key.content props = Some (JSON.Str c)
      ∧ JS.trim p ≠ [] ∧ JS.trim c ≠ [].
Proof.
  unfold validateArgs. split.
  - destruct args; try done.
    change (bool_decide (write_file = list_files)) with false.
    change (bool_decide (write_file = read_file)) with false.
    rewrite bool_decide_eq_true_2 by done.
    destruct (assertNonEmptyString _ Key.filePath) as [|[]] eqn:E; [done|].
    apply assertNonEmptyString_ok in E as (p & Hp & Hne).
    intros (c & Hc & Hnc)%assertNonEmptyString_ok. by exists props, p, c.
  - intros (props & p & c & -> & Hp & Hc & Hne & Hnc).
    change (bool_decide (write_file = list_files)) with false.
    change (bool_decide (write_file = read_file)) with false.
    rewrite bool_decide_eq_true_2 by done.
    rewrite (proj2 (assertNonEmptyString_ok _ Key.filePath)) by by exists p.
    apply assertNonEmptyString_ok. by exists c.
Qed.

(** *** The dispatch, case by case *)

Lemma runTool_unknown name args w :
  name ∉ TOOL_NAMES → runTool cwd moduleDir name args w = (inl (UnknownTool name), w).
Proof.
  intros H. unfold runTool.
  by rewrite (bool_decide_eq_false_2 _ H).
Qed.

Lemma runTool_invalid name args w e :
  name ∈ TOOL_NAMES → validateArgs name args = inl e →
  runTool cwd moduleDir name args w = (inl e, w).
Proof.
  intros H Hv. unfold runTool.
  rewrite (bool_decide_eq_true_2 _ H). simpl. unfold bind, lift.
  by rewrite Hv.
Qed.

(** Past the two checks, the sandbox is ensured and the tool runs. *)
Lemma runTool_valid name args w :
  name ∈ TOOL_NAMES → validateArgs name args = inr tt →
  runTool cwd moduleDir name args w
  = (do _ <- ensureSandbox cwd moduleDir;
     if bool_decide (name = list_files) then
       do names <- FS.readdir (SANDBOX_DIR cwd moduleDir);
       ret (match names with
            | [] => JS.lit "(empty)"
            | _ => JS.join [10] names
            end)
     else if bool_decide (name = read_file) then
       do userPath <- lift (stringArg Key.filePath args);
       do target <- lift (resolveSandboxPath cwd moduleDir userPath);
       FS.readFile target
     else if bool_decide (name = write_file) then
       do userPath <- lift (stringArg Key.filePath args);
       do target <- lift (resolveSandboxPath cwd moduleDir userPath);
       do _ <- FS.mkdir (Path.dirname target);
       do data <- lift (stringArg Key.content args);
       do _ <- FS.writeFile target data;
       ret (JS.lit "Wrote " ++ userPath)
     else throw (UnhandledTool name)) w.
Proof.
  intros H Hv. unfold runTool.
  rewrite (bool_decide_eq_true_2 _ H). cbn [negb].
  unfold bind at 1. unfold lift at 1. by rewrite Hv.
Qed.

Lemma runTool_list_files w :
  runTool cwd moduleDir list_files (JSON.Object []) w
  = (do _ <- ensureSandbox cwd moduleDir;
     do names <- FS.readdir (SANDBOX_DIR cwd moduleDir);
     ret (match names with
          | [] => JS.lit "(empty)"
          | _ => JS.join [10] names
          end)) w.
Proof. reflexivity. Qed.

Lemma runTool_read_file props p w :
  JSON.lookup Key.filePath props = Some (JSON.Str p) → JS.trim p ≠ [] →
  runTool cwd moduleDir read_file (JSON.Object props) w
  = (do _ <- ensureSandbox cwd moduleDir;
     do target <- lift (resolveSandboxPath cwd moduleDir p);
     FS.readFile target) w.
Proof.
  intros Hp Hne. rewrite runTool_valid.
  - unfold bind, lift, stringArg. rewrite Hp. reflexivity.
  - apply elem_of_TOOL_NAMES. auto.
  - apply validateArgs_read_file. by exists props, p.
Qed.

Lemma runTool_write_file props p c w :
  JSON.lookup Key.filePath props = Some (JSON.Str p) →
  JSON.lookup Key.content props = Some (JSON.Str c) →
  JS.trim p ≠ [] → JS.trim c ≠ [] →
  runTool cwd moduleDir write_file (JSON.Object props) w
  = (do _ <- ensureSandbox cwd moduleDir;
     do target <- lift (resolveSandboxPath cwd moduleDir p);
     do _ <- FS.mkdir (Path.dirname target);
     do _ <- FS.writeFile target c;
     ret (JS.lit "Wrote " ++ p)) w.
Proof.
  intros Hp Hc Hne Hnc. rewrite runTool_valid.
  - unfold bind, lift, stringArg. rewrite Hp, Hc.
    destruct (ensureSandbox cwd moduleDir w) as [[e|[]] w1]; [done|].
    change (bool_decide (write_file = list_files)) with false.
    change (bool_decide (write_file = read_file)) with false.
    rewrite bool_decide_eq_true_2 by done. cbv iota.
    destruct (resolveSandboxPath cwd moduleDir p) as [e|target]; [done|].
    by destruct (FS.mkdir (Path.dirname target) w1) as [[e|[]] w2].
  - apply elem_of_TOOL_NAMES. auto.
  - apply validateArgs_write_file. by exists props, p, c.
Qed.

(** *** What a call does to the file system *)

Ltac no_write Hin :=
  repeat (apply elem_of_cons in Hin as [Hin|Hin];
          [try discriminate Hin|]);
  try (by apply elem_of_nil in Hin).

Lemma resolveSandboxPath_error userPath e :
  resolveSandboxPath cwd moduleDir userPath = inl e →
  kindOf e = PathEscapeError.
Proof.
  unfold resolveSandboxPath. destruct (negb _ && negb _); by intros [= <-].
Qed.

Lemma runTool_trace name args w r w' :
  runTool cwd moduleDir name args w = (r, w') →
  (refused name args r ∧ w' = w)
  ∨ (accepted name args
     ∧ (∀ e, r = inl e →
          kindOf e = FilesystemError ∨ kindOf e = PathEscapeError)
     ∧ ∃ rest,
         FS.log w' = FS.log w ++ FS.Mkdir (SANDBOX_DIR cwd moduleDir) :: rest
         ∧ (∀ path data, FS.WriteFile path data ∈ rest → JS.trim data ≠ [])
         ∧ (∀ v, r = inr v →
              ∃ w1, ensureSandbox cwd moduleDir w = (inr tt, w1))).
Proof.
  intros Hrun. destruct (decide (name ∈ TOOL_NAMES)) as [Hin|Hout].
  2:{ rewrite runTool_unknown in Hrun by done. injection Hrun as <- <-.
      left. split; [|done]. by left. }
  destruct (validateArgs name args) as [e|[]] eqn:Hv.
  { rewrite (runTool_invalid _ _ _ e) in Hrun by done.
    injection Hrun as <- <-. left. split; [|done]. right. split; [done|].
    by exists e. }
  right. split; [done|].
  apply elem_of_TOOL_NAMES in Hin as [->|[->| ->]].
  - apply validateArgs_list_files in Hv as ->.
    rewrite runTool_list_files in Hrun. unfold bind, ret in Hrun.
    destruct (ensureSandbox cwd moduleDir w) as [[e|[]] w1] eqn:E1.
    + injection Hrun as <- <-. split.
      { intros ? [= <-]. left. by eapply mkdir_error. }
      apply mkdir_log in E1. exists [].
      repeat split; [done| |done]. intros ?? Hin. no_write Hin.
    + pose proof (mkdir_log _ _ _ _ E1) as L1.
      destruct (FS.readdir _ w1) as [[e|names] w2] eqn:E2;
        pose proof (readdir_log _ _ _ _ E2) as [L2 _];
        injection Hrun as <- <-;
        (split; [intros ? [= <-]; left; by eapply readdir_error|]);
        exists [FS.Readdir (SANDBOX_DIR cwd moduleDir)];
        (split; [by rewrite L2, L1, <- app_assoc|]);
        (split; [intros ?? Hin; no_write Hin|]); [done|].
      intros _ _. by exists w1.
  - apply validateArgs_read_file in Hv as (props & p & -> & Hp & Hne).
    rewrite (runTool_read_file props p) in Hrun by done.
    unfold bind, lift in Hrun.
    destruct (ensureSandbox cwd moduleDir w) as [[e|[]] w1] eqn:E1.
    + injection Hrun as <- <-. split.
      { intros ? [= <-]. left. by eapply mkdir_error. }
      apply mkdir_log in E1. exists [].
      repeat split; [done| |done]. intros ?? Hin. no_write Hin.
    + pose proof (mkdir_log _ _ _ _ E1) as L1.
      destruct (resolveSandboxPath cwd moduleDir p) as [e|target] eqn:E2.
      * injection Hrun as <- <-. split.
        { intros ? [= <-]. right. by eapply resolveSandboxPath_error. }
        exists []. repeat split; [done| |done]. intros ?? Hin. no_write Hin.
      * split.
        { intros ? ->. left. by eapply readFile_error. }
        apply readFile_log in Hrun as [L2 _].
        exists [FS.ReadFile target].
        split; [by rewrite L2, L1, <- app_assoc|].
        split; [intros ?? Hin; no_write Hin|]. intros _ _. by exists w1.
  - apply validateArgs_write_file
      in Hv as (props & p & c & -> & Hp & Hc & Hne & Hnc).
    rewrite (runTool_write_file props p c) in Hrun by done.
    unfold bind, lift, ret in Hrun.
    destruct (ensureSandbox cwd moduleDir w) as [[e|[]] w1] eqn:E1.
    + injection Hrun as <- <-. split.
      { intros ? [= <-]. left. by eapply mkdir_error. }
      apply mkdir_log in E1. exists [].
      repeat split; [done| |done]. intros ?? Hin. no_write Hin.
    + pose proof (mkdir_log _ _ _ _ E1) as L1.
      destruct (resolveSandboxPath cwd moduleDir p) as [e|target] eqn:E0.
      * injection Hrun as <- <-. split.
        { intros ? [= <-]. right. by eapply resolveSandboxPath_error. }
        exists []. repeat split; [done| |done]. intros ?? Hin. no_write Hin.
      * destruct (FS.mkdir (Path.dirname target) w1) as [[e|[]] w2] eqn:E2;
          pose proof (mkdir_log _ _ _ _ E2) as L2.
        -- injection Hrun as <- <-. split.
           { intros ? [= <-]. left. by eapply mkdir_error. }
           exists [FS.Mkdir (Path.dirname target)].
           split; [by rewrite L2, L1, <- app_assoc|].
           split; [intros ?? Hin; no_write Hin|done].
        -- destruct (FS.writeFile target c w2) as [[e|[]] w3] eqn:E3;
             pose proof (writeFile_log _ _ _ _ _ E3) as L3;
             injection Hrun as <- <-;
             (split; [intros ? [= <-]; left; by eapply writeFile_error|]);
             exists [FS.Mkdir (Path.dirname target); FS.WriteFile target c];
             (split; [by rewrite L3, L2, L1, <- !app_assoc|]);
             (split; [intros ?? Hin; no_write Hin; by injection Hin as _ <-|]);
             [done|].
           intros _ _. by exists w1.
Qed.

End ToolFacts.

(* ===================================================================== *)
(** ** What the tools do to the nodes of the file system *)
(* ===================================================================== *)

Section NodeFacts.
Import FS.

Implicit Types m : gmap (list (list N)) node.

(** [mkdir -p] changes a node only by creating a directory on the way. *)
Lemma mkdirFrom_change visited todo m m' k :
  mkdirFrom visited todo m = inr m' →
  m' !! k = m !! k
  ∨ (m !! k = None ∧ m' !! k = Some Dir
     ∧ ∃ t1 x t2, todo = t1 ++ x :: t2 ∧ k = visited ++ t1 ++ [x]).
Proof.
  revert visited m. induction todo as [|y todo IH]; intros visited m; simpl.
  - intros [= ->]. by left.
  - assert (Hlift : ∀ m0,
              (m' !! k = m0 !! k
               ∨ (m0 !! k = None ∧ m' !! k = Some Dir
                  ∧ ∃ t1 x t2, todo = t1 ++ x :: t2
                               ∧ k = (visited ++ [y]) ++ t1 ++ [x])) →
              m0 !! k = m !! k →
              m' !! k = m !! k
              ∨ (m !! k = None ∧ m' !! k = Some Dir
                 ∧ ∃ t1 x t2, y :: todo = t1 ++ x :: t2
                              ∧ k = visited ++ t1 ++ [x])).
    { intros m0 [H|(H1 & H2 & t1 & x & t2 & -> & ->)] Hm0.
      - left. congruence.
      - right. split; [congruence|]. split; [done|].
        exists (y :: t1), x, t2. split; [done|]. by rewrite <- app_assoc. }
    destruct (m !! (visited ++ [y])) as [[]|] eqn:E; [done| |].
    + intros H. apply (Hlift m); [apply (IH _ _ H)|done].
    + intros H. destruct (decide (k = visited ++ [y])) as [->|Hne].
      * right. split; [done|]. split.
        -- eapply mkdirFrom_preserves; [exact H|]. apply lookup_insert_eq.
        -- by exists [], y, todo.
      * apply (Hlift (<[visited ++ [y] := Dir]> m)); [apply (IH _ _ H)|].
        by rewrite lookup_insert_ne.
Qed.

Lemma on_way_prefix (todo t1 t2 : list (list N)) x :
  todo = t1 ++ x :: t2 → t1 ++ [x] `prefix_of` todo.
Proof. intros ->. exists t2. by rewrite <- app_assoc. Qed.

Lemma mkdir_nodes path w r w' :
  mkdir path w = (r, w') →
  (nodes w' = nodes w ∧ ∃ e, r = inl e)
  ∨ (r = inr tt ∧ mkdirFrom [] (key path) (nodes w) = inr (nodes w')).
Proof.
  unfold mkdir. simpl. destruct (hasNul path).
  { intros [= <- <-]. left. split; [done|by eexists]. }
  destruct (mkdirFrom _ _ _) eqn:E; intros [= <- <-].
  - left. split; [done|by eexists].
  - by right.
Qed.

Lemma writeFile_nodes path data w r w' :
  writeFile path data w = (r, w') →
  (nodes w' = nodes w ∧ ∃ e, r = inl e)
  ∨ (r = inr tt ∧ nodeAt (nodes w) (key path) ≠ Some Dir
     ∧ nodes w' = <[key path := File (UTF8.encode data)]> (nodes w)).
Proof.
  unfold writeFile. simpl. destruct (hasNul path).
  { intros [= <- <-]. left. split; [done|by eexists]. }
  destruct (nodeAt (nodes w) (key path)) as [[]|] eqn:E;
    destruct (nodeAt (nodes w) (removelast (key path))) as [[]|];
    intros [= <- <-];
    try (left; split; [done|by eexists]); right; by rewrite ?E.
Qed.

End NodeFacts.

Section ToolNodes.
Import FS.

Variable cwd : list N.
Variable moduleDir : list N.

(** The nodes after a call: as before; or with the sandbox root made; or,
    for [write_file] only, with the directory of the target made as well
    and then, when the call returns, with the target written. *)
Lemma runTool_nodes name args w r w' :
  runTool cwd moduleDir name args w = (r, w') →
  nodes w' = nodes w
  ∨ ∃ m1,
      mkdirFrom [] (key (SANDBOX_DIR cwd moduleDir)) (nodes w) = inr m1
      ∧ (nodes w' = m1
         ∨ ∃ p c target m2,
             name = write_file
             ∧ stringArg Key.filePath args = inr p
             ∧ stringArg Key.content args = inr c
             ∧ resolveSandboxPath cwd moduleDir p = inr target
             ∧ mkdirFrom [] (key (Path.dirname target)) m1 = inr m2
             ∧ (nodes w' = m2
                ∨ (r = inr (JS.lit "Wrote " ++ p)
                   ∧ nodeAt m2 (key target) ≠ Some Dir
                   ∧ nodes w'
                     = <[key target := File (UTF8.encode c)]> m2))).
Proof.
  intros Hrun. destruct (decide (name ∈ TOOL_NAMES)) as [Hin|Hout].
  2:{ rewrite runTool_unknown in Hrun by done. injection Hrun as <- <-.
      by left. }
  destruct (validateArgs name args) as [e|[]] eqn:Hv.
  { rewrite (runTool_invalid _ _ _ _ _ e) in Hrun by done.
    injection Hrun as <- <-. by left. }
  apply elem_of_TOOL_NAMES in Hin as [->|[->| ->]].
  - apply validateArgs_list_files in Hv as ->.
    rewrite runTool_list_files in Hrun. unfold bind, ret in Hrun.
    destruct (ensureSandbox cwd moduleDir w) as [[e|[]] w1] eqn:E1;
      apply mkdir_nodes in E1 as [[E1 [e' Er]]|[Er E1]];
      try discriminate Er.
    + injection Hrun as <- <-. by left.
    + right. exists (nodes w1). split; [done|]. left.
      destruct (readdir _ w1) as [[e|names] w2] eqn:E2;
        apply readdir_log in E2 as [_ E2]; by injection Hrun as <- <-.
  - apply validateArgs_read_file in Hv as (props & p & -> & Hp & Hne).
    rewrite (runTool_read_file _ _ props p) in Hrun by done.
    unfold bind, lift in Hrun.
    destruct (ensureSandbox cwd moduleDir w) as [[e|[]] w1] eqn:E1;
      apply mkdir_nodes in E1 as [[E1 [e' Er]]|[Er E1]];
      try discriminate Er.
    + injection Hrun as <- <-. by left.
    + right. exists (nodes w1). split; [done|]. left.
      destruct (resolveSandboxPath cwd moduleDir p) as [e|target].
      * by injection Hrun as <- <-.
      * by apply readFile_log in Hrun as [_ ->].
  - apply validateArgs_write_file
      in Hv as (props & p & c & -> & Hp & Hc & Hne & Hnc).
    rewrite (runTool_write_file _ _ props p c) in Hrun by done.
    unfold bind, lift, ret in Hrun.
    destruct (ensureSandbox cwd moduleDir w) as [[e|[]] w1] eqn:E1;
      apply mkdir_nodes in E1 as [[E1 [e' Er]]|[Er E1]];
      try discriminate Er.
    + injection Hrun as <- <-. by left.
    + right. exists (nodes w1). split; [done|].
      destruct (resolveSandboxPath cwd moduleDir p) as [e|target] eqn:E0.
      { left. by injection Hrun as <- <-. }
      destruct (mkdir (Path.dirname target) w1) as [[e|[]] w2] eqn:E2;
        apply mkdir_nodes in E2 as [[E2 [e' Er']]|[Er' E2]];
        try discriminate Er'.
      { left. by injection Hrun as <- <-. }
      right. exists p, c, target, (nodes w2).
      unfold stringArg. rewrite Hp, Hc. repeat (split; [done|]).
      destruct (writeFile target c w2) as [[e|[]] w3] eqn:E3;
        apply writeFile_nodes in E3 as [[E3 [e' Er'']]|(Er'' & E3 & E4)];
        try discriminate Er''; injection Hrun as <- <-.
      * by left.
      * by right.
Qed.

End ToolNodes.

Section ToolsKeep.
Import FS.

Variable cwd : list N.
Variable moduleDir : list N.

(** No call removes a node or changes a directory; a file changes only as
    the target of a [write_file] that returns. *)
Lemma runTool_kept (name : list N) (args : JSON.value)
    (w w' : world) (r : error + list N) (k : list (list N)) (n : node) :
  runTool cwd moduleDir name args w = (r, w') →
  nodes w !! k = Some n →
  nodes w' !! k = Some n
  ∨ (∃ b c, n = File b
            ∧ writesAt cwd moduleDir k (name, args)
            ∧ stringArg Key.content args = inr c
            ∧ (∃ v, r = inr v)
            ∧ nodes w' !! k = Some (File (UTF8.encode c))).
Proof.
  intros Hrun Hk.
  destruct (runTool_nodes _ _ _ _ _ _ _ Hrun)
    as [->|(m1 & Hm1 & [->|(p & c & target & m2 & -> & Hp & Hc & Ht & Hm2
                            & [->|(-> & Hnd & ->)])])].
  - by left.
  - left. by eapply mkdirFrom_preserves.
  - left. eapply mkdirFrom_preserves; [exact Hm2|].
    by eapply mkdirFrom_preserves.
  - assert (Hk2 : m2 !! k = Some n).
    { eapply mkdirFrom_preserves; [exact Hm2|].
      by eapply mkdirFrom_preserves. }
    destruct (decide (k = key target)) as [->|Hne].
    + right. destruct n as [b|].
      * exists b, c. split; [done|]. split.
        { split; [done|]. by exists p, target. }
        split; [done|]. split; [by eexists|]. apply lookup_insert_eq.
      * exfalso. apply Hnd. unfold nodeAt.
        destruct (key target) eqn:E; [done|]. done.
    + left. by rewrite lookup_insert_ne.
Qed.

(** Calls none of which is a write at [k] that returns keep the sandbox
    root in place and the file at [k] as it is. *)
Lemma runCalls_keep calls w k b :
  (∀ t1 x t2, key (SANDBOX_DIR cwd moduleDir) = t1 ++ x :: t2 →
     nodes w !! (t1 ++ [x]) = Some Dir) →
  nodes w !! k = Some (File b) →
  unwritten cwd moduleDir k calls w →
  (∀ t1 x t2, key (SANDBOX_DIR cwd moduleDir) = t1 ++ x :: t2 →
     nodes (runCalls cwd moduleDir calls w) !! (t1 ++ [x]) = Some Dir)
  ∧ nodes (runCalls cwd moduleDir calls w) !! k = Some (File b).
Proof.
  revert w. induction calls as [|[name args] calls IH]; intros w Hroot Hb Hno.
  { done. }
  cbn [unwritten fst snd] in Hno. destruct Hno as [Hno Hrest].
  cbn [runCalls fold_left fst snd].
  destruct (runTool cwd moduleDir name args w) as [r w1] eqn:Hrun.
  cbn [fst snd] in *. apply IH; [| |done].
  - intros t1 x t2 Hk.
    destruct (runTool_kept _ _ _ _ _ _ _ Hrun (Hroot t1 x t2 Hk))
      as [H|(? & ? & ? & _)]; done.
  - destruct (runTool_kept _ _ _ _ _ _ _ Hrun Hb)
      as [H|(? & ? & _ & Hw & _ & Hv & _)]; [done|]. by destruct Hno.
Qed.

(** A call that is not a [write_file] at [k] is no write at [k]. *)
Lemma unwritten_static calls w k :
  Forall (fun call => ¬ writesAt cwd moduleDir k call) calls →
  unwritten cwd moduleDir k calls w.
Proof.
  revert w. induction calls as [|call calls IH]; intros w Hno; [done|].
  apply Forall_cons in Hno as [Hno Hrest]. split; [|by apply IH].
  by intros [Hw _].
Qed.

End ToolsKeep.

Lemma pair_eta_inr {A B C : Type} (x : (A + B) * C) (r : B) :
  fst x = inr r → x = (inr r, snd x).
Proof. destruct x as [y z]. simpl. by intros ->. Qed.
(* ===================================================================== *)
(** ** The tool layer: validation, listing, blank arguments, round trip *)
(* ===================================================================== *)

Section Blank.
Import JS.

Lemma trimStart_nil s : trimStart s = [] ↔ blank s.
Proof.
  unfold blank. induction s as [|c s IH]; simpl; [by split|].
  destruct (isWhiteSpace c) eqn:E.
  - rewrite IH. split; [by constructor|]. by inversion 1.
  - split; [done|]. inversion 1; congruence.
Qed.

Lemma trimStart_blank s : blank (trimStart s) → trimStart s = [].
Proof.
  induction s as [|c s IH]; simpl; [done|].
  destruct (isWhiteSpace c) eqn:E; [done|]. inversion 1; congruence.
Qed.

Lemma trim_nil s : trim s = [] ↔ blank s.
Proof.
  unfold trim, trimEnd. split.
  - intros H. apply trimStart_nil, trimStart_blank.
    apply (f_equal (@rev N)) in H. rewrite rev_involutive in H. simpl in H.
    apply trimStart_nil in H. unfold blank in *.
    apply Forall_forall. intros x Hx. rewrite Forall_forall in H.
    apply H. apply list_elem_of_In, in_rev. rewrite rev_involutive.
    by apply list_elem_of_In.
  - intros H. apply trimStart_nil in H. by rewrite H.
Qed.

End Blank.

Section ToolProperties.

Variable cwd : list N.
Variable moduleDir : list N.

(** C6. The name and the arguments are checked before the file system is
    touched: a call refused as an unknown tool or for invalid arguments
    leaves the file system and the record of calls made to it as they
    were; a call that returns a result has first created the sandbox root,
    and creating it again changes no node. *)
Theorem runTool_validates_first (name : list N) (args : JSON.value)
    (w w' : FS.world) (r : error + list N) :
  runTool cwd moduleDir name args w = (r, w') →
  (name ∉ TOOL_NAMES → r = inl (UnknownTool name) ∧ w' = w)
  ∧ (∀ e, name ∈ TOOL_NAMES → validateArgs name args = inl e →
       r = inl e ∧ kindOf e = InvalidArgumentsError ∧ w' = w)
  ∧ (∀ e, r = inl e →
       kindOf e = UnknownToolError ∨ kindOf e = InvalidArgumentsError →
       w' = w)
  ∧ (∀ v, r = inr v →
       ∃ w1 rest,
         ensureSandbox cwd moduleDir w = (inr tt, w1)
         ∧ FS.log w'
           = FS.log w ++ FS.Mkdir (SANDBOX_DIR cwd moduleDir) :: rest
         ∧ ensureSandbox cwd moduleDir w1
           = (inr tt, FS.logged (FS.Mkdir (SANDBOX_DIR cwd moduleDir)) w1)).
Proof.
  intros Hrun. split; [|split; [|split]].
  - intros Hout. rewrite runTool_unknown in Hrun by done.
    by injection Hrun as <- <-.
  - intros e Hin Hv. rewrite (runTool_invalid _ _ _ _ _ e) in Hrun by done.
    injection Hrun as <- <-. split; [done|]. split; [|done].
    by eapply validateArgs_error.
  - intros e -> Hk.
    destruct (runTool_trace _ _ _ _ _ _ _ Hrun) as [[_ ?]|(_ & He & _)];
      [done|].
    destruct (He e eq_refl) as [H|H]; rewrite H in Hk; by destruct Hk.
  - intros v ->.
    destruct (runTool_trace _ _ _ _ _ _ _ Hrun)
      as [[[[_ ?]|(_ & e & _ & ?)] _]|(_ & _ & rest & Hlog & _ & Hens)];
      [done|done|].
    destruct (Hens v eq_refl) as [w1 Hw1]. exists w1, rest.
    split; [done|]. split; [done|]. by apply (mkdir_idempotent _ w).
Qed.

(** C8. [list_files] refuses an argument object that has a key.  When the
    sandbox root can be created, [list_files {}] returns the names of the
    nodes directly in it joined by line breaks, and the text "(empty)",
    which is not the empty text, when there is none. *)
Theorem list_files_listing (props : list (list N * JSON.value))
    (w w1 : FS.world) :
  (props ≠ [] →
   runTool cwd moduleDir list_files (JSON.Object props) w
   = (inl ListFilesNoArguments, w)
   ∧ kindOf ListFilesNoArguments = InvalidArgumentsError)
  ∧ (ensureSandbox cwd moduleDir w = (inr tt, w1) →
     let here := FS.key (SANDBOX_DIR cwd moduleDir) in
     let names := map UTF8.decode (FS.entries (FS.nodes w1) here) in
     runTool cwd moduleDir list_files (JSON.Object []) w
     = (inr (match names with
             | [] => JS.lit "(empty)"
             | _ => JS.join [10] names
             end),
        FS.logged (FS.Readdir (SANDBOX_DIR cwd moduleDir)) w1)
     ∧ (∀ n, n ∈ FS.entries (FS.nodes w1) here
             ↔ is_Some (FS.nodes w1 !! (here ++ [n])))
     ∧ ((∀ n, FS.nodes w1 !! (here ++ [n]) = None) →
        runTool cwd moduleDir list_files (JSON.Object []) w
        = (inr (JS.lit "(empty)"),
           FS.logged (FS.Readdir (SANDBOX_DIR cwd moduleDir)) w1))
     ∧ JS.lit "(empty)" ≠ []).
Proof.
  split.
  - intros Hne. split; [|done]. apply runTool_invalid.
    + apply elem_of_TOOL_NAMES. auto.
    + by destruct props.
  - intros Hens here names.
    assert (Hrun : runTool cwd moduleDir list_files (JSON.Object []) w
                   = (inr (match names with
                           | [] => JS.lit "(empty)"
                           | _ => JS.join [10] names
                           end),
                      FS.logged (FS.Readdir (SANDBOX_DIR cwd moduleDir)) w1)).
    { rewrite runTool_list_files. unfold bind. rewrite Hens.
      apply mkdir_ok in Hens as (Hnul & Hm & _).
      rewrite readdir_dir; [done|done|]. by eapply nodeAt_made. }
    split; [done|]. split; [apply elem_of_entries|]. split; [|done].
    intros Hnone. rewrite Hrun.
    assert (Hent : FS.entries (FS.nodes w1) here = []).
    { apply elem_of_nil_inv. intros n [x Hx]%elem_of_entries.
      by rewrite Hnone in Hx. }
    unfold names. by rewrite Hent.
Qed.

(** C9. [read_file] and [write_file] refuse a [filePath] that is empty or
    white space only, and [write_file] refuses such a [content], each with
    an invalid-arguments error and before the file system is touched; so
    no call of [runTool] ever writes blank content. *)
Theorem blank_arguments_refused (name : list N)
    (props : list (list N * JSON.value)) (w : FS.world) :
  name = read_file ∨ name = write_file →
  (∀ p, JSON.lookup Key.filePath props = Some (JSON.Str p) → blank p →
     runTool cwd moduleDir name (JSON.Object props) w
     = (inl (MustBeNonEmptyString Key.filePath), w))
  ∧ (∀ p c, JSON.lookup Key.filePath props = Some (JSON.Str p) →
       ¬ blank p →
       JSON.lookup Key.content props = Some (JSON.Str c) → blank c →
       runTool cwd moduleDir write_file (JSON.Object props) w
       = (inl (MustBeNonEmptyString Key.content), w))
  ∧ (∀ field, kindOf (MustBeNonEmptyString field) = InvalidArgumentsError)
  ∧ (∀ tool args r w' written,
       runTool cwd moduleDir tool args w = (r, w') →
       FS.log w' = FS.log w ++ written →
       ∀ path data, FS.WriteFile path data ∈ written → ¬ blank data).
Proof.
  intros Hname. split; [|split; [|split]].
  - intros p Hp Hblank%trim_nil. apply runTool_invalid.
    + apply elem_of_TOOL_NAMES. tauto.
    + unfold validateArgs, assertNonEmptyString.
      destruct Hname as [-> | ->].
      * change (bool_decide (read_file = list_files)) with false.
        rewrite bool_decide_eq_true_2 by done. cbv iota.
        by rewrite Hp, Hblank.
      * change (bool_decide (write_file = list_files)) with false.
        change (bool_decide (write_file = read_file)) with false.
        rewrite bool_decide_eq_true_2 by done. cbv iota.
        by rewrite Hp, Hblank.
  - intros p c Hp Hnb Hc Hblank%trim_nil. apply runTool_invalid.
    + apply elem_of_TOOL_NAMES. tauto.
    + unfold validateArgs.
      change (bool_decide (write_file = list_files)) with false.
      change (bool_decide (write_file = read_file)) with false.
      rewrite bool_decide_eq_true_2 by done. cbv iota.
      rewrite (proj2 (assertNonEmptyString_ok _ Key.filePath)).
      * unfold assertNonEmptyString. by rewrite Hc, Hblank.
      * exists p. split; [done|]. by rewrite trim_nil.
  - done.
  - intros tool args r w' written Hrun Hlog path data Hin.
    destruct (runTool_trace _ _ _ _ _ _ _ Hrun)
      as [[_ ->]|(_ & _ & rest & Hlog' & Hw & _)].
    + rewrite <- (app_nil_r (FS.log w)) in Hlog at 1.
      apply app_inv_head in Hlog. subst written. by apply elem_of_nil in Hin.
    + rewrite Hlog' in Hlog. apply app_inv_head in Hlog. subst written.
      apply elem_of_cons in Hin as [Hin|Hin]; [discriminate Hin|].
      rewrite <- trim_nil. by eapply Hw.
Qed.

(** C7. When [write_file] accepts a path [p] and a content
    [c] that is well-formed UTF-16, it returns "Wrote " followed by [p] as
    given; the file at the resolved path then holds [c] whatever was there
    before, under directories that all exist; and after any further tool
    calls, failing ones and writes to other files included, none of which
    is a write to that file that returns, [read_file] of [p] returns
    exactly [c] and changes no node. *)
Theorem write_then_read (props : list (list N * JSON.value))
    (p c : list N) (w w' : FS.world) (r : list N) :
  JSON.lookup Key.filePath props = Some (JSON.Str p) →
  JSON.lookup Key.content props = Some (JSON.Str c) →
  UTF8.wellFormed c = true →
  runTool cwd moduleDir write_file (JSON.Object props) w = (inr r, w') →
  r = JS.lit "Wrote " ++ p
  ∧ (∃ target,
       resolveSandboxPath cwd moduleDir p = inr target
       ∧ FS.nodes w' !! FS.key target = Some (FS.File (UTF8.encode c))
       ∧ ∀ t1 x t2, FS.key (Path.dirname target) = t1 ++ x :: t2 →
           FS.nodes w' !! (t1 ++ [x]) = Some FS.Dir)
  ∧ (∀ target calls props' later,
       resolveSandboxPath cwd moduleDir p = inr target →
       unwritten cwd moduleDir (FS.key target) calls w' →
       JSON.lookup Key.filePath props' = Some (JSON.Str p) →
       FS.nodes later = FS.nodes (runCalls cwd moduleDir calls w') →
       ∃ w'', runTool cwd moduleDir read_file (JSON.Object props') later
              = (inr c, w'')
              ∧ FS.nodes w'' = FS.nodes later).
Proof.
  intros Hp Hc Hwf Hrun.
  assert (Hv : JS.trim p ≠ [] ∧ JS.trim c ≠ []).
  { destruct (runTool_trace _ _ _ _ _ _ _ Hrun)
      as [[[[_ ?]|(_ & e & _ & ?)] _]|([_ Hv] & _)]; [done|done|].
    apply validateArgs_write_file in Hv
      as (props0 & p0 & c0 & [= <-] & Hp0 & Hc0 & ? & ?).
    rewrite Hp in Hp0. rewrite Hc in Hc0.
    injection Hp0 as <-. by injection Hc0 as <-. }
  destruct Hv as [Hnp Hnc].
  rewrite (runTool_write_file _ _ props p c) in Hrun by done.
  unfold bind, lift, ret in Hrun.
  destruct (ensureSandbox cwd moduleDir w) as [[e|[]] w1] eqn:E1; [done|].
  destruct (resolveSandboxPath cwd moduleDir p) as [e|target] eqn:E0; [done|].
  destruct (FS.mkdir (Path.dirname target) w1) as [[e|[]] w2] eqn:E2; [done|].
  destruct (FS.writeFile target c w2) as [[e|[]] w3] eqn:E3; [done|].
  injection Hrun as <- <-.
  apply mkdir_ok in E1 as (Hnul1 & Hm1 & _).
  apply mkdir_ok in E2 as (_ & Hm2 & _).
  apply writeFile_ok in E3 as (Hnul3 & Hnd & Hn3 & _).
  assert (Hkey : FS.key target ≠ []) by (by intros Hk; rewrite Hk in Hnd).
  assert (Hdir : ∀ k, FS.nodes w2 !! k = Some FS.Dir →
                      FS.nodes w3 !! k = Some FS.Dir).
  { intros k Hk. rewrite Hn3, lookup_insert_ne; [done|]. intros <-.
    apply Hnd. unfold FS.nodeAt. by destruct (FS.key target). }
  assert (Hfile : FS.nodes w3 !! FS.key target
                  = Some (FS.File (UTF8.encode c))).
  { rewrite Hn3. apply lookup_insert_eq. }
  assert (Hroot : ∀ t1 x t2,
            FS.key (SANDBOX_DIR cwd moduleDir) = t1 ++ x :: t2 →
            FS.nodes w3 !! (t1 ++ [x]) = Some FS.Dir).
  { intros t1 x t2 Ht. apply Hdir.
    eapply mkdirFrom_preserves; [exact Hm2|].
    by apply (mkdirFrom_made [] _ _ _ t1 x t2 Hm1). }
  split; [done|]. split.
  - exists target. split; [done|]. split; [done|].
    intros t1 x t2 Ht. apply Hdir.
    by apply (mkdirFrom_made [] _ _ _ t1 x t2 Hm2).
  - intros target0 calls props' later [= <-] Hun Hp' Hl.
    destruct (runCalls_keep cwd moduleDir calls w3 _ _ Hroot Hfile Hun)
      as [Hroot' Hfile'].
    rewrite (runTool_read_file _ _ props' p) by done. unfold bind, lift.
    unfold ensureSandbox. rewrite mkdir_present; [|done|].
    + rewrite E0. rewrite (readFile_file _ _ (UTF8.encode c)); [|done|].
      * rewrite decode_encode by done. by eexists.
      * simpl. rewrite Hl. unfold FS.nodeAt.
        by destruct (FS.key target) eqn:Ek.
    + intros t1 x t2 Ht. rewrite Hl. by apply (Hroot' t1 x t2).
Qed.

End ToolProperties.

Lemma runTool_validates_first_witness :
  ∃ w1 rest,
    ensureSandbox [] exampleDir emptyWorld = (inr tt, w1)
    ∧ FS.log (after [(list_files, JSON.Object [])] emptyWorld)
      = FS.log emptyWorld ++ FS.Mkdir (SANDBOX_DIR [] exampleDir) :: rest
    ∧ ensureSandbox [] exampleDir w1
      = (inr tt, FS.logged (FS.Mkdir (SANDBOX_DIR [] exampleDir)) w1).
Proof.
  refine (proj2 (proj2 (proj2
    (runTool_validates_first [] exampleDir list_files (JSON.Object [])
       emptyWorld (after [(list_files, JSON.Object [])] emptyWorld)
       (inr (JS.lit "(empty)")) _))) (JS.lit "(empty)") eq_refl).
  vm_compute. reflexivity.
Defined.

Lemma list_files_listing_witness :
  runTool [] exampleDir list_files (JSON.Object []) emptyWorld
  = (inr (JS.lit "(empty)"), after [(list_files, JSON.Object [])] emptyWorld)
  ∧ runTool [] exampleDir list_files (JSON.Object [])
      (after [(write_file, writeArgs (JS.lit "notes/a.txt") (JS.lit "one"))]
         emptyWorld)
    = (inr (JS.lit "notes"),
       after [(write_file, writeArgs (JS.lit "notes/a.txt") (JS.lit "one"));
              (list_files, JSON.Object [])]
         emptyWorld).
Proof.
  split.
  - refine (eq_trans (proj1 (proj2 (list_files_listing [] exampleDir []
      emptyWorld (snd (ensureSandbox [] exampleDir emptyWorld))) _)) _);
      vm_compute; reflexivity.
  - refine (eq_trans (proj1 (proj2 (list_files_listing [] exampleDir []
      (after [(write_file, writeArgs (JS.lit "notes/a.txt") (JS.lit "one"))]
         emptyWorld)
      (snd (ensureSandbox [] exampleDir
         (after [(write_file, writeArgs (JS.lit "notes/a.txt") (JS.lit "one"))]
            emptyWorld)))) _)) _);
      vm_compute; reflexivity.
Defined.

Lemma blank_arguments_refused_witness :
  runTool [] exampleDir write_file
    (writeArgs (JS.lit "a.txt") (JS.lit "  ")) emptyWorld
  = (inl (MustBeNonEmptyString Key.content), emptyWorld)
  ∧ runTool [] exampleDir read_file (readArgs [9; 160; 8232]) emptyWorld
    = (inl (MustBeNonEmptyString Key.filePath), emptyWorld).
Proof.
  split.
  - apply (proj1 (proj2 (blank_arguments_refused [] exampleDir write_file
      [(Key.filePath, JSON.Str (JS.lit "a.txt"));
       (Key.content, JSON.Str (JS.lit "  "))] emptyWorld (or_intror eq_refl)))
      (JS.lit "a.txt") (JS.lit "  ")); try reflexivity.
    + intros H. inversion H as [|? ? Hc _]. discriminate Hc.
    + repeat constructor.
  - apply (proj1 (blank_arguments_refused [] exampleDir read_file
      [(Key.filePath, JSON.Str [9; 160; 8232])] emptyWorld (or_introl eq_refl))
      [9; 160; 8232]); [reflexivity|repeat constructor].
Defined.

Lemma write_then_read_witness :
  ∃ w'',
    runTool [] exampleDir read_file
      (JSON.Object [(Key.filePath, JSON.Str (JS.lit "notes/a.txt"))])
      (runCalls [] exampleDir
         [(write_file, writeArgs (JS.lit "notes/b.txt") (JS.lit "two"));
          (write_file, writeArgs (JS.lit "notes/a.txt") [32; 10]);
          (read_file, readArgs (JS.lit "missing.txt"));
          (list_files, JSON.Object [])]
         (snd (runTool [] exampleDir write_file
                 (JSON.Object
                    [(Key.filePath, JSON.Str (JS.lit "notes/a.txt"));
                     (Key.content, JSON.Str [104; 233; 0xD83D; 0xDE00])])
                 (after [(write_file,
                          writeArgs (JS.lit "notes/a.txt") (JS.lit "old"))]
                    emptyWorld))))
    = (inr [104; 233; 0xD83D; 0xDE00], w'')
    ∧ FS.nodes w''
      = FS.nodes
          (runCalls [] exampleDir
             [(write_file, writeArgs (JS.lit "notes/b.txt") (JS.lit "two"));
              (write_file, writeArgs (JS.lit "notes/a.txt") [32; 10]);
              (read_file, readArgs (JS.lit "missing.txt"));
              (list_files, JSON.Object [])]
             (snd (runTool [] exampleDir write_file
                     (JSON.Object
                        [(Key.filePath, JSON.Str (JS.lit "notes/a.txt"));
                         (Key.content, JSON.Str [104; 233; 0xD83D; 0xDE00])])
                     (after [(write_file,
                              writeArgs (JS.lit "notes/a.txt") (JS.lit "old"))]
                        emptyWorld)))).
Proof.
  refine (proj2 (proj2 (write_then_read [] exampleDir
    [(Key.filePath, JSON.Str (JS.lit "notes/a.txt"));
     (Key.content, JSON.Str [104; 233; 0xD83D; 0xDE00])]
    (JS.lit "notes/a.txt") [104; 233; 0xD83D; 0xDE00]
    (after [(write_file, writeArgs (JS.lit "notes/a.txt") (JS.lit "old"))]
       emptyWorld)
    _ (JS.lit "Wrote notes/a.txt") eq_refl eq_refl eq_refl
    (pair_eta_inr _ _ _)))
    (JS.lit "/srv/hello-agent/sandbox-lite/notes/a.txt")
    [(write_file, writeArgs (JS.lit "notes/b.txt") (JS.lit "two"));
     (write_file, writeArgs (JS.lit "notes/a.txt") [32; 10]);
     (read_file, readArgs (JS.lit "missing.txt"));
     (list_files, JSON.Object [])]
    [(Key.filePath, JSON.Str (JS.lit "notes/a.txt"))] _ _ _ eq_refl eq_refl).
  - vm_compute. reflexivity.
  - vm_compute. reflexivity.
  - cbn [unwritten fst snd]. split; [|split; [|split; [|split; [|exact I]]]].
    + intros [(_ & q & t & Hq & Ht & Hk) _].
      vm_compute in Hq. injection Hq as <-.
      vm_compute in Ht. injection Ht as <-.
      vm_compute in Hk. discriminate Hk.
    + intros [_ [v Hv]]. vm_compute in Hv. discriminate Hv.
    + intros [[Hn _] _]. discriminate Hn.
    + intros [[Hn _] _]. discriminate Hn.
Defined.

(** Content with a surrogate on its own is accepted and written, and read
    back as U+FFFD. *)
Lemma write_then_read_lone_surrogate :
  fst (runTool [] exampleDir write_file (writeArgs (JS.lit "a.txt") [0xD800])
         emptyWorld)
  = inr (JS.lit "Wrote a.txt")
  ∧ fst (runTool [] exampleDir read_file (readArgs (JS.lit "a.txt"))
           (after [(write_file, writeArgs (JS.lit "a.txt") [0xD800])]
              emptyWorld))
    = inr [0xFFFD].
Proof. split; vm_compute; reflexivity. Qed.
(* ===================================================================== *)
(** ** The agent loop *)
(* ===================================================================== *)

Section LoopFacts.

Variable cwd : list N.
Variable moduleDir : list N.
Variable client : list N -> nat -> list message -> completion.

Local Open Scope Z_scope.

Lemma loop_exhausted fuel model inc max it st :
  max <= it →
  loop cwd moduleDir client (S fuel) model inc max it st
  = Some (Run (inl ExceededMaxIterations) st).
Proof. intros H. simpl. by rewrite (proj2 (Z.ltb_ge _ _) H). Qed.

Lemma loop_adapter_failure fuel model inc max it st e :
  it < max →
  callModel client model (calls st) (messages st) = inl e →
  loop cwd moduleDir client (S fuel) model inc max it st
  = Some (Run (inl e) (counted st)).
Proof. intros H Hc. simpl. by rewrite (proj2 (Z.ltb_lt _ _) H), Hc. Qed.

Lemma loop_parse_failure fuel model inc max it st text e :
  it < max →
  callModel client model (calls st) (messages st) = inr text →
  parseModelOutput text = inl e →
  loop cwd moduleDir client (S fuel) model inc max it st
  = Some (Run (inl e) (counted st)).
Proof.
  intros H Hc Hp. simpl. by rewrite (proj2 (Z.ltb_lt _ _) H), Hc, Hp.
Qed.

Lemma loop_final fuel model inc max it st text action :
  it < max →
  callModel client model (calls st) (messages st) = inr text →
  parseModelOutput text = inr action →
  JSON.isString (JSON.lookup Key.type action) final_ = true →
  let st1 := pushStep (FinalStep (stringOf (JSON.lookup Key.content action)))
               (pushMessage (Message assistant text) (counted st)) in
  loop cwd moduleDir client (S fuel) model inc max it st
  = Some (Run (inr (Answer (stringOf (JSON.lookup Key.content action))
                      (if inc then Some (trace st1) else None)))
              st1).
Proof.
  intros H Hc Hp Hf. simpl.
  by rewrite (proj2 (Z.ltb_lt _ _) H), Hc, Hp, Hf.
Qed.

Lemma loop_tool_failure fuel model inc max it st text action e w' :
  it < max →
  callModel client model (calls st) (messages st) = inr text →
  parseModelOutput text = inr action →
  JSON.isString (JSON.lookup Key.type action) final_ = false →
  runTool cwd moduleDir (stringOf (JSON.lookup Key.name action))
    (orElse (JSON.lookup Key.args action) (JSON.Object [])) (world st)
  = (inl e, w') →
  loop cwd moduleDir client (S fuel) model inc max it st
  = Some (Run (inl e)
              (withWorld w' (pushMessage (Message assistant text) (counted st)))).
Proof.
  intros H Hc Hp Hf Hr. simpl.
  by rewrite (proj2 (Z.ltb_lt _ _) H), Hc, Hp, Hf, Hr.
Qed.

Lemma loop_tool_success fuel model inc max it st text action result w' :
  it < max →
  callModel client model (calls st) (messages st) = inr text →
  parseModelOutput text = inr action →
  JSON.isString (JSON.lookup Key.type action) final_ = false →
  runTool cwd moduleDir (stringOf (JSON.lookup Key.name action))
    (orElse (JSON.lookup Key.args action) (JSON.Object [])) (world st)
  = (inr result, w') →
  loop cwd moduleDir client (S fuel) model inc max it st
  = loop cwd moduleDir client fuel model inc max (it + 1)
      (pushMessage
         (Message user
            (observation (stringOf (JSON.lookup Key.name action)) result))
         (pushStep
            (ToolStep (stringOf (JSON.lookup Key.name action))
               (orElse (JSON.lookup Key.args action) (JSON.Object [])) result)
            (withWorld w'
               (pushMessage (Message assistant text) (counted st))))).
Proof.
  intros H Hc Hp Hf Hr. simpl.
  by rewrite (proj2 (Z.ltb_lt _ _) H), Hc, Hp, Hf, Hr.
Qed.

(** A pass that is a successful tool turn hands over to the next pass. *)
Lemma loop_toolTurn fuel model inc max it st st' :
  it < max →
  toolTurn cwd moduleDir client model st = Some st' →
  loop cwd moduleDir client (S fuel) model inc max it st
  = loop cwd moduleDir client fuel model inc max (it + 1) st'.
Proof.
  intros H Ht. unfold toolTurn in Ht.
  destruct (callModel client model (calls st) (messages st))
    as [|text] eqn:Hc; [done|].
  destruct (parseModelOutput text) as [|action] eqn:Hp; [done|].
  destruct (JSON.isString _ final_) eqn:Hf; [done|].
  simpl in Ht.
  destruct (runTool cwd moduleDir _ _ (world st)) as [[|result] w'] eqn:Hr;
    [done|].
  injection Ht as <-. by eapply loop_tool_success.
Qed.

Lemma loop_toolTurns n fuel model inc max it st st' :
  it + Z.of_nat n <= max →
  toolTurns cwd moduleDir client n model st = Some st' →
  loop cwd moduleDir client (n + fuel) model inc max it st
  = loop cwd moduleDir client fuel model inc max (it + Z.of_nat n) st'.
Proof.
  revert it st. induction n as [|n IH]; intros it st Hle Ht.
  - injection Ht as <-. by rewrite Z.add_0_r.
  - cbn [toolTurns] in Ht.
    destruct (toolTurn cwd moduleDir client model st) as [st1|] eqn:E;
      [|done].
    change (S n + fuel)%nat with (S (n + fuel)).
    rewrite (loop_toolTurn _ _ _ _ _ _ st1) by (done || lia).
    rewrite (IH (it + 1) st1) by (done || lia). f_equal. lia.
Qed.

Lemma toolTurn_calls model st st' :
  toolTurn cwd moduleDir client model st = Some st' →
  calls st' = S (calls st).
Proof.
  unfold toolTurn.
  destruct (callModel _ _ _ _) as [|text]; [done|].
  destruct (parseModelOutput text) as [|action]; [done|].
  destruct (JSON.isString _ final_); [done|].
  destruct (runTool _ _ _ _ _) as [[|result] w']; [done|].
  by intros [= <-].
Qed.

Lemma toolTurns_calls n model st st' :
  toolTurns cwd moduleDir client n model st = Some st' →
  calls st' = (calls st + n)%nat.
Proof.
  revert st. induction n as [|n IH]; intros st; cbn [toolTurns].
  - intros [= <-]. lia.
  - destruct (toolTurn _ _ _ _ st) as [st1|] eqn:E; [|done].
    intros H. apply IH in H. apply toolTurn_calls in E. lia.
Qed.

(** With fuel for one pass more than the passes left, the loop ends, and
    it has made no more model calls than passes were left. *)
Lemma loop_total fuel model inc max it st :
  (Z.to_nat (max - it) < fuel)%nat →
  ∃ r, loop cwd moduleDir client fuel model inc max it st = Some r
       ∧ (calls st <= calls (final r) <= calls st + Z.to_nat (max - it))%nat.
Proof.
  revert it st. induction fuel as [|fuel IH]; intros it st Hf; [lia|].
  destruct (Z.lt_ge_cases it max) as [Hlt|Hge].
  2:{ rewrite loop_exhausted by lia. eexists. split; [done|]. simpl. lia. }
  destruct (callModel client model (calls st) (messages st))
    as [e|text] eqn:Hc.
  { rewrite (loop_adapter_failure _ _ _ _ _ _ e) by done.
    eexists. split; [done|]. simpl. lia. }
  destruct (parseModelOutput text) as [e|action] eqn:Hp.
  { rewrite (loop_parse_failure _ _ _ _ _ _ text e) by done.
    eexists. split; [done|]. simpl. lia. }
  destruct (JSON.isString (JSON.lookup Key.type action) final_) eqn:Hfin.
  { rewrite (loop_final _ _ _ _ _ _ text action) by done.
    eexists. split; [done|]. simpl. lia. }
  destruct (runTool cwd moduleDir (stringOf (JSON.lookup Key.name action))
              (orElse (JSON.lookup Key.args action) (JSON.Object []))
              (world st)) as [[e|result] w'] eqn:Hr.
  { rewrite (loop_tool_failure _ _ _ _ _ _ text action e w') by done.
    eexists. split; [done|]. simpl. lia. }
  rewrite (loop_tool_success _ _ _ _ _ _ text action result w') by done.
  match goal with |- context [loop _ _ _ _ _ _ _ _ ?s] =>
    destruct (IH (it + 1) s) as (r & Hr' & Hcalls); [lia|]
  end.
  exists r. split; [done|]. simpl in Hcalls. lia.
Qed.

Lemma runLiteAgent_valid env req text model w :
  validRequest env req text model →
  runLiteAgent cwd moduleDir client env req w
  = loop cwd moduleDir client (S (Z.to_nat (capOf req))) model
      (includeSteps req) (capOf req) 0 (initialState text w).
Proof.
  intros (Hin & Ht & Hk & Hm & Hne). unfold runLiteAgent, modelOf in *.
  rewrite Hin. destruct (Nat.eqb _ _) eqn:E.
  { apply Nat.eqb_eq in E. by destruct (JS.trim text). }
  rewrite Hk, Hm. by destruct model.
Qed.

(** A request that fails the checks made before the loop ends there. *)
Lemma runLiteAgent_invalid env req w :
  (¬ ∃ text model, validRequest env req text model) →
  ∃ e, runLiteAgent cwd moduleDir client env req w
       = Some (Run (inl e) (State [] [] w 0)).
Proof.
  intros Hinv. unfold runLiteAgent.
  destruct (input req) as [[]|] eqn:Hin; try by eexists.
  destruct (Nat.eqb _ _) eqn:E; [by eexists|].
  destruct (isBlank (OPENAI_API_KEY env)) eqn:Hk; [by eexists|].
  destruct (if isBlank (OPENAI_LITE_MODEL env) then _ else _)
    as [[|c m]|] eqn:Hm; try by eexists.
  exfalso. apply Hinv. exists s, (c :: m). repeat split; try done.
  intros Hs. by rewrite Hs in E.
Qed.

End LoopFacts.
(* ===================================================================== *)
(** ** The agent loop: termination, the message record, fatal tools *)
(* ===================================================================== *)

Section LoopProperties.

Variable cwd : list N.
Variable moduleDir : list N.
Variable client : list N -> nat -> list message -> completion.

Lemma runLiteAgent_cases env req w :
  (∃ text model,
     validRequest env req text model
     ∧ runLiteAgent cwd moduleDir client env req w
       = loop cwd moduleDir client (S (Z.to_nat (capOf req))) model
           (includeSteps req) (capOf req) 0 (initialState text w))
  ∨ (∃ e, runLiteAgent cwd moduleDir client env req w
          = Some (Run (inl e) (State [] [] w 0))).
Proof.
  unfold runLiteAgent.
  destruct (input req) as [[]|] eqn:Hin; try (right; by eexists).
  destruct (Nat.eqb _ _) eqn:E; [right; by eexists|].
  destruct (isBlank (OPENAI_API_KEY env)) eqn:Hk; [right; by eexists|].
  destruct (if isBlank (OPENAI_LITE_MODEL env) then _ else _)
    as [[|c m]|] eqn:Hm; try (right; by eexists).
  left. exists s, (c :: m). split; [|done]. repeat split; try done.
  intros Hs. by rewrite Hs in E.
Qed.

(** C2. Every invocation ends, in an answer or in an error,
    after at most [max 0 maxIterations] model calls.  When each of the
    first [maxIterations] passes is a tool action that the tool layer
    carries out, the invocation fails with the max-iterations error after
    exactly [max 0 maxIterations] model calls. *)
Theorem runLiteAgent_terminates (env : environment) (req : request)
    (w : FS.world) :
  (∃ r, runLiteAgent cwd moduleDir client env req w = Some r
        ∧ (Z.of_nat (calls (final r)) <= Z.max 0 (capOf req))%Z)
  ∧ (∀ text model stn,
       validRequest env req text model →
       toolTurns cwd moduleDir client (Z.to_nat (capOf req)) model
         (initialState text w) = Some stn →
       runLiteAgent cwd moduleDir client env req w
       = Some (Run (inl ExceededMaxIterations) stn)
       ∧ calls stn = Z.to_nat (capOf req)
       ∧ kindOf ExceededMaxIterations = MaxIterationsExceeded).
Proof.
  split.
  - destruct (runLiteAgent_cases env req w)
      as [(text & model & _ & ->)|[e ->]].
    + destruct (loop_total cwd moduleDir client (S (Z.to_nat (capOf req)))
                  model (includeSteps req) (capOf req) 0
                  (initialState text w)) as (r & -> & Hc).
      * rewrite Z.sub_0_r. lia.
      * exists r. split; [done|]. simpl in Hc. lia.
    + eexists. split; [done|]. simpl. lia.
  - intros text model stn Hvalid Hturns.
    rewrite (runLiteAgent_valid _ _ _ _ _ text model) by done.
    pose proof (toolTurns_calls _ _ _ _ _ _ _ Hturns) as Hcalls.
    simpl in Hcalls. split; [|done].
    destruct (Z.le_gt_cases 0 (capOf req)) as [Hpos|Hneg].
    + replace (S (Z.to_nat (capOf req))) with (Z.to_nat (capOf req) + 1)%nat
        by lia.
      rewrite (loop_toolTurns _ _ _ _ _ _ _ _ _ _ stn) by (done || lia).
      apply loop_exhausted. lia.
    + replace (Z.to_nat (capOf req)) with 0%nat in * by lia.
      injection Hturns as <-. apply loop_exhausted. lia.
Qed.

(** C10. With valid input and configuration, a [maxIterations] of zero or
    less fails with the max-iterations error at once: no model call is
    made and the file system is not touched. *)
Theorem nonpositive_cap_fails_at_once (env : environment) (req : request)
    (text model : list N) (n : Z) (w : FS.world) :
  validRequest env req text model →
  maxIterations req = Some n → (n <= 0)%Z →
  ∃ r, runLiteAgent cwd moduleDir client env req w = Some r
       ∧ outcome r = inl ExceededMaxIterations
       ∧ kindOf ExceededMaxIterations = MaxIterationsExceeded
       ∧ calls (final r) = 0%nat
       ∧ trace (final r) = []
       ∧ world (final r) = w.
Proof.
  intros Hvalid Hmax Hn.
  rewrite (runLiteAgent_valid _ _ _ _ _ text model) by done.
  unfold capOf. rewrite Hmax. rewrite loop_exhausted by done.
  by eexists.
Qed.

(** C4. In a pass of the loop the text of the model is parsed
    first.  When parsing fails the invocation fails with that error and
    the message sequence is as it was before the call.  When parsing
    succeeds the text is appended as it is, as an assistant message,
    before the action is carried out: a final answer ends the invocation
    with that message last, and a tool runs with that message last. *)
Theorem assistant_text_recorded_after_parsing (fuel : nat)
    (model : list N) (inc : bool) (max it : Z) (st : state)
    (text : list N) :
  (it < max)%Z →
  callModel client model (calls st) (messages st) = inr text →
  let st1 := pushMessage (Message assistant text) (counted st) in
  (∀ e, parseModelOutput text = inl e →
     ∃ r, loop cwd moduleDir client (S fuel) model inc max it st = Some r
          ∧ outcome r = inl e
          ∧ messages (final r) = messages st)
  ∧ messages st1 = messages st ++ [Message assistant text]
  ∧ (∀ action, parseModelOutput text = inr action →
       JSON.isString (JSON.lookup Key.type action) final_ = true →
       ∃ r, loop cwd moduleDir client (S fuel) model inc max it st = Some r
            ∧ outcome r
              = inr (Answer (stringOf (JSON.lookup Key.content action))
                       (if inc then Some (trace (final r)) else None))
            ∧ messages (final r) = messages st1)
  ∧ (∀ action e w', parseModelOutput text = inr action →
       JSON.isString (JSON.lookup Key.type action) final_ = false →
       runTool cwd moduleDir (stringOf (JSON.lookup Key.name action))
         (orElse (JSON.lookup Key.args action) (JSON.Object [])) (world st1)
       = (inl e, w') →
       ∃ r, loop cwd moduleDir client (S fuel) model inc max it st = Some r
            ∧ outcome r = inl e
            ∧ messages (final r) = messages st1)
  ∧ (∀ action result w', parseModelOutput text = inr action →
       JSON.isString (JSON.lookup Key.type action) final_ = false →
       runTool cwd moduleDir (stringOf (JSON.lookup Key.name action))
         (orElse (JSON.lookup Key.args action) (JSON.Object [])) (world st1)
       = (inr result, w') →
       ∃ st2, toolTurn cwd moduleDir client model st = Some st2
              ∧ messages st2
                = messages st1
                  ++ [Message user
                        (observation
                           (stringOf (JSON.lookup Key.name action)) result)]
              ∧ loop cwd moduleDir client (S fuel) model inc max it st
                = loop cwd moduleDir client fuel model inc max (it + 1) st2).
Proof.
  intros Hlt Hcall st1. split; [|split; [done|split; [|split]]].
  - intros e Hp. rewrite (loop_parse_failure _ _ _ _ _ _ _ _ _ text e) by done.
    by eexists.
  - intros action Hp Hf.
    rewrite (loop_final _ _ _ _ _ _ _ _ _ text action) by done.
    by eexists.
  - intros action e w' Hp Hf Hr.
    rewrite (loop_tool_failure _ _ _ _ _ _ _ _ _ text action e w') by done.
    by eexists.
  - intros action result w' Hp Hf Hr.
    rewrite (loop_tool_success _ _ _ _ _ _ _ _ _ text action result w')
      by done.
    eexists. split; [|split; [|reflexivity]].
    + unfold toolTurn. rewrite Hcall, Hp, Hf. simpl.
      simpl in Hr. by rewrite Hr.
    + done.
Qed.

(** C5. When a tool call fails in a pass of the loop, after any number of
    passes that went well, the invocation ends with the tool's error and no
    answer; the pass has appended the assistant message and nothing
    else: no observation, no step, no further model call. *)
Theorem tool_failure_is_fatal (n fuel : nat) (model : list N) (inc : bool)
    (max it : Z) (st0 st : state) (text : list N)
    (action : list (list N * JSON.value)) (e : error) (w' : FS.world) :
  toolTurns cwd moduleDir client n model st0 = Some st →
  (it + Z.of_nat n < max)%Z →
  callModel client model (calls st) (messages st) = inr text →
  parseModelOutput text = inr action →
  JSON.isString (JSON.lookup Key.type action) final_ = false →
  runTool cwd moduleDir (stringOf (JSON.lookup Key.name action))
    (orElse (JSON.lookup Key.args action) (JSON.Object [])) (world st)
  = (inl e, w') →
  loop cwd moduleDir client (n + S fuel) model inc max it st0
  = Some (Run (inl e)
              (State (messages st ++ [Message assistant text]) (trace st)
                     w' (S (calls st))))
  ∧ (kindOf e = UnknownToolError ∨ kindOf e = InvalidArgumentsError
     ∨ kindOf e = PathEscapeError ∨ kindOf e = FilesystemError).
Proof.
  intros Hturns Hlt Hcall Hp Hf Hr. split.
  - rewrite (loop_toolTurns _ _ _ _ _ _ _ _ _ _ st) by (done || lia).
    by rewrite (loop_tool_failure _ _ _ _ _ _ _ _ _ text action e w')
      by done.
  - destruct (runTool_trace _ _ _ _ _ _ _ Hr)
      as [[[[_ [= ->]]|(_ & e' & Hv & [= ->])] _]|(_ & He & _)].
    + by left.
    + right. left. by eapply validateArgs_error.
    + destruct (He e eq_refl) as [?|?]; tauto.
Qed.

End LoopProperties.

Lemma exampleRequest_valid cap :
  validRequest exampleEnv (exampleRequest cap) (JS.lit "List the files.")
    (JS.lit "test-model").
Proof. repeat split; discriminate. Defined.

Lemma runLiteAgent_terminates_witness :
  ∃ stn,
    toolTurns [] exampleDir (always listFilesCall) 6 (JS.lit "test-model")
      (initialState (JS.lit "List the files.") emptyWorld) = Some stn
    ∧ runLiteAgent [] exampleDir (always listFilesCall) exampleEnv
        (exampleRequest None) emptyWorld
      = Some (Run (inl ExceededMaxIterations) stn)
    ∧ calls stn = 6%nat.
Proof.
  destruct (toolTurns [] exampleDir (always listFilesCall) 6
              (JS.lit "test-model")
              (initialState (JS.lit "List the files.") emptyWorld))
    as [stn|] eqn:E; [|vm_compute in E; discriminate E].
  exists stn. split; [reflexivity|].
  destruct (proj2 (runLiteAgent_terminates [] exampleDir
                     (always listFilesCall) exampleEnv (exampleRequest None)
                     emptyWorld)
              (JS.lit "List the files.") (JS.lit "test-model") stn
              (exampleRequest_valid None) E) as (Hrun & Hcalls & _).
  split; [exact Hrun|exact Hcalls].
Defined.

(** A model that asks for an unknown tool on every turn ends the
    invocation at the first call, with the unknown-tool error; and a
    negative cap lets no call through, which is more than the cap. *)
Lemma runLiteAgent_unknown_tool_every_turn :
  (∀ model n msgs,
     callModel (always unknownToolCall) model n msgs = inr unknownToolCall)
  ∧ (∃ action,
       parseModelOutput unknownToolCall = inr action
       ∧ JSON.lookup Key.type action = Some (JSON.Str tool_))
  ∧ (∃ r,
       runLiteAgent [] exampleDir (always unknownToolCall) exampleEnv
         (exampleRequest None) emptyWorld = Some r
       ∧ outcome r = inl (UnknownTool (JS.lit "nope"))
       ∧ calls (final r) = 1%nat)
  ∧ (∃ r,
       runLiteAgent [] exampleDir (always listFilesCall) exampleEnv
         (exampleRequest (Some (-1)%Z)) emptyWorld = Some r
       ∧ ¬ (Z.of_nat (calls (final r)) <= -1)%Z).
Proof.
  split; [done|]. split; [by eexists|]. split.
  - eexists. split; [vm_compute; reflexivity|]. split; reflexivity.
  - eexists. split; [vm_compute; reflexivity|]. simpl. lia.
Qed.

Lemma nonpositive_cap_fails_at_once_witness :
  ∃ r, runLiteAgent [] exampleDir (always listFilesCall) exampleEnv
         (exampleRequest (Some 0%Z)) emptyWorld = Some r
       ∧ outcome r = inl ExceededMaxIterations
       ∧ kindOf ExceededMaxIterations = MaxIterationsExceeded
       ∧ calls (final r) = 0%nat
       ∧ trace (final r) = []
       ∧ world (final r) = emptyWorld.
Proof.
  apply (nonpositive_cap_fails_at_once [] exampleDir (always listFilesCall)
           exampleEnv (exampleRequest (Some 0%Z)) (JS.lit "List the files.")
           (JS.lit "test-model") 0%Z emptyWorld (exampleRequest_valid _)
           eq_refl).
  discriminate.
Defined.

Lemma assistant_text_recorded_after_parsing_witness :
  ∃ r, loop [] exampleDir (always (JS.lit "prose")) 1 (JS.lit "test-model")
         false 6 0 (initialState (JS.lit "List the files.") emptyWorld)
       = Some r
       ∧ outcome r = inl ExpectedJSON
       ∧ messages (final r)
         = messages (initialState (JS.lit "List the files.") emptyWorld).
Proof.
  apply (proj1 (assistant_text_recorded_after_parsing [] exampleDir
                  (always (JS.lit "prose")) 0 (JS.lit "test-model") false
                  6 0 (initialState (JS.lit "List the files.") emptyWorld)
                  (JS.lit "prose") eq_refl eq_refl)).
  reflexivity.
Defined.

(** A reply that is not JSON fails the invocation, and the messages it
    ends with are the system prompt and the input: the reply is not among
    them. *)
Lemma offending_text_not_recorded :
  ∃ r, runLiteAgent [] exampleDir (always (JS.lit "prose")) exampleEnv
         (exampleRequest None) emptyWorld = Some r
       ∧ outcome r = inl ExpectedJSON
       ∧ Message assistant (JS.lit "prose") ∉ messages (final r).
Proof.
  eexists. split; [vm_compute; reflexivity|]. split; [reflexivity|].
  simpl. intros H.
  apply elem_of_cons in H as [H|H]; [discriminate H|].
  apply elem_of_cons in H as [H|H]; [discriminate H|].
  by apply elem_of_nil in H.
Qed.

Lemma tool_failure_is_fatal_witness :
  ∃ st,
    toolTurns [] exampleDir (scripted [listFilesCall; readMissingCall]) 1
      (JS.lit "test-model")
      (initialState (JS.lit "List the files.") emptyWorld) = Some st
    ∧ ∃ w',
        loop [] exampleDir (scripted [listFilesCall; readMissingCall]) (1 + 1)
          (JS.lit "test-model") false 6 0
          (initialState (JS.lit "List the files.") emptyWorld)
        = Some (Run (inl (FsFailure FS.ENOENT
                            (JS.lit "/srv/hello-agent/sandbox-lite/missing.txt")))
                    (State (messages st ++ [Message assistant readMissingCall])
                       (trace st) w' 2)).
Proof.
  destruct (toolTurns [] exampleDir (scripted [listFilesCall; readMissingCall])
              1 (JS.lit "test-model")
              (initialState (JS.lit "List the files.") emptyWorld))
    as [st|] eqn:E; [|vm_compute in E; discriminate E].
  exists st. split; [reflexivity|].
  assert (Hst : Some st = Some st) by reflexivity.
  rewrite <- E in Hst at 1. vm_compute in Hst. injection Hst as Hst.
  eexists.
  refine (eq_trans (proj1 (tool_failure_is_fatal [] exampleDir
    (scripted [listFilesCall; readMissingCall]) 1 0 (JS.lit "test-model")
    false 6 0 (initialState (JS.lit "List the files.") emptyWorld) st
    readMissingCall _ _ _ E _ _ _ _ _)) _).
  - reflexivity.
  - rewrite <- Hst. reflexivity.
  - vm_compute. reflexivity.
  - reflexivity.
  - rewrite <- Hst. vm_compute. reflexivity.
  - rewrite <- Hst. reflexivity.
Defined.

(** The scenario of the design: list, write [hello.txt], answer.  The
    output is "Done.", the steps are the three actions in order, and the
    file holds "hi". *)
Lemma scenario_list_write_done :
  ∃ r,
    runLiteAgent [] exampleDir
      (scripted [listFilesCall; writeHelloCall; doneCall]) exampleEnv
      (Request (Some (JSON.Str (JS.lit "List files in sandbox, then write a hello.txt")))
         true None)
      emptyWorld = Some r
    ∧ outcome r
      = inr (Answer (JS.lit "Done.")
               (Some [ ToolStep list_files (JSON.Object []) (JS.lit "(empty)");
                       ToolStep write_file
                         (writeArgs (JS.lit "hello.txt") (JS.lit "hi"))
                         (JS.lit "Wrote hello.txt");
                       FinalStep (JS.lit "Done.") ]))
    ∧ calls (final r) = 3%nat
    ∧ fst (runTool [] exampleDir read_file (readArgs (JS.lit "hello.txt"))
             (world (final r)))
      = inr (JS.lit "hi").
Proof.
  eexists. split; [vm_compute; reflexivity|].
  repeat split; vm_compute; reflexivity.
Qed.
